(** * Pool tournament bot: tables, referrals and payouts

    A shallow embedding of [main.py].  The persisted aggregate is the JSON
    document of [data/state.json]; every command handler loads it, mutates the
    loaded dictionaries in place, and writes it back with [save_state].  The
    handlers are modelled in a writer/error monad whose log records, in program
    order, every [save_state] and every message handed to the transport.  What
    [int] and [str.lower] do outside ASCII is left to the interpreter's
    character database, a parameter of every statement. *)

From Stdlib Require Import ZArith PrimFloat Ascii String.
From stdpp Require Import base option list strings gmap pretty.

Local Open Scope string_scope.
Local Open Scope list_scope.
Local Open Scope Z_scope.

(** ** Configuration constants *)

Definition TABLE_SIZE : Z := 5.
Definition BUY_IN : Z := 5.
Definition WIN_PRIZE : Z := 20.
Definition HOUSE_CUT : Z := 5.
Definition PROMO_BONUS : float := 2.0%float.

(** ** Python built-ins used by the handlers *)

(** Text is held as the bytes of its UTF-8 encoding: a character below 128 is
    one byte, and every byte of any other character is 128 or more.  Prefix
    tests, splitting at an ASCII separator and concatenation therefore act on
    the bytes as they act on the characters. *)

(** [str(n)] for an [int]. *)
Definition str (n : Z) : string := pretty n.

(** [s.isascii()]. *)
Fixpoint is_ascii (s : string) : bool :=
  match s with
  | EmptyString => true
  | String c r => (nat_of_ascii c <? 128)%nat && is_ascii r
  end.

(** [s.startswith(p)]. *)
Fixpoint startswith (p s : string) : bool :=
  match p, s with
  | EmptyString, _ => true
  | String a p', String b s' => if decide (a = b) then startswith p' s' else false
  | String _ _, EmptyString => false
  end.

(** [s.split(sep, 1)] for a one-character separator: the text before the
    first separator and, when there is one, the text after it. *)
Fixpoint split1 (sep : ascii) (s : string) : string * option string :=
  match s with
  | EmptyString => (EmptyString, None)
  | String c r =>
      if decide (c = sep) then (EmptyString, Some r)
      else let '(a, b) := split1 sep r in (String c a, b)
  end.

(** Truthiness of an optional string: [None] and [""] are falsy. *)
Definition truthy (o : option string) : bool :=
  match o with
  | Some (String _ _) => true
  | _ => false
  end.

(** Python exceptions that the handlers can run into. *)
Inductive PyErr := ValueError | KeyError | IndexError | OSError | JSONDecodeError.

Inductive Exc (A : Type) :=
| Ok (a : A)
| Raise (e : PyErr).
Arguments Ok {A} a.
Arguments Raise {A} e.

(** What [str.lower] and [int] do with text that has a character outside
    ASCII is fixed by the character database of the interpreter (which
    characters are decimal digits or white space and with what value, which
    have a lower-case form).  That database is a parameter of the
    development: every statement below holds for whatever it contains. *)
Class Unicode := {
  (** [s.lower()] for [s] with a character outside ASCII. *)
  lower_unicode : string → string;
  (** [int(s)] for [s] with a character outside ASCII; [None] stands for
      [ValueError]. *)
  int_unicode : string → option Z;
}.

(** [c.lower()] for an ASCII character, and [s.lower()] for ASCII text. *)
Definition lower_ascii (c : ascii) : ascii :=
  let n := nat_of_ascii c in
  if ((65 <=? n)%nat && (n <=? 90)%nat)%bool then ascii_of_nat (n + 32) else c.

Fixpoint lower_ascii_text (s : string) : string :=
  match s with
  | EmptyString => EmptyString
  | String c r => String (lower_ascii c) (lower_ascii_text r)
  end.

(** [s.lower()]. *)
Definition lower `{!Unicode} (s : string) : string :=
  if is_ascii s then lower_ascii_text s else lower_unicode s.

(** [int(s)] in base 10 on ASCII text: white space (tab, line feed, vertical
    tab, form feed, carriage return, space) is skipped at both ends; between
    comes an optional sign followed by digits, where single underscores may
    separate digits.  Anything else is a [ValueError].  (The cap that some
    interpreters put on the number of digits of a conversion, 4300 by default,
    is above the 4096 characters of a Telegram message and is left out.) *)
Definition is_space (c : ascii) : bool :=
  let n := nat_of_ascii c in
  ((9 <=? n)%nat && (n <=? 13)%nat)%bool || (n =? 32)%nat.

Fixpoint lstrip (s : string) : string :=
  match s with
  | EmptyString => EmptyString
  | String c r => if is_space c then lstrip r else s
  end.

Fixpoint all_space (s : string) : bool :=
  match s with
  | EmptyString => true
  | String c r => is_space c && all_space r
  end.

Definition digit_of (c : ascii) : option Z :=
  let n := nat_of_ascii c in
  if ((48 <=? n)%nat && (n <=? 57)%nat)%bool then Some (Z.of_nat n - 48) else None.

Fixpoint int_digits (acc : Z) (after_digit : bool) (s : string) : option Z :=
  match s with
  | EmptyString => if after_digit then Some acc else None
  | String c r =>
      if decide (c = "_"%char) then
        if after_digit then int_digits acc false r else None
      else
        match digit_of c with
        | Some d => int_digits (10 * acc + d) true r
        | None => if after_digit && all_space s then Some acc else None
        end
  end.

Definition int_ascii (s : string) : option Z :=
  match lstrip s with
  | String "-" r => Z.opp <$> int_digits 0 false r
  | String "+" r => int_digits 0 false r
  | r => int_digits 0 false r
  end.

(** [int(s)]. *)
Definition py_int `{!Unicode} (s : string) : Exc Z :=
  match (if is_ascii s then int_ascii s else int_unicode s) with
  | Some n => Ok n
  | None => Raise ValueError
  end.

(** ** Data model *)

(** The principal handed over by the transport ([update.effective_user]). *)
Record User := mkUser {
  user_id : Z;
  user_username : option string;
  user_first_name : string;
}.

Record Player := mkPlayer {
  player_id : Z;
  player_username : option string;
  player_first_name : string;
  joined_tables : Z;
  wins : Z;
  referred_by : option string;
  player_promo_code : option string;
}.

Record Promoter := mkPromoter {
  promoter_id : Z;
  promoter_username : option string;
  promoter_first_name : option string;
  promo_code : string;
  referred_players : Z;
  pending_payout : float;
  total_paid : float;
}.

Inductive Status := waiting | running | finished.

Global Instance Status_eq_dec : EqDecision Status.
Proof. solve_decision. Defined.

Record Table := mkTable {
  table_id : Z;
  status : Status;
  buy_in : Z;
  table_players : list string;
  winner_id : option string;
  table_promoters : gmap string Z;
}.

(** The aggregate.  [tables] keeps the insertion order of the Python
    dictionary, which [find_waiting_table] iterates; [players] and [promoters]
    are only ever looked up by key. *)
Record State := mkState {
  tables : list (string * Table);
  next_table_id : Z;
  players : gmap string Player;
  promoters : gmap string Promoter;
}.

Definition empty_state : State :=
  {| tables := []; next_table_id := 1; players := ∅; promoters := ∅ |}.

(** Field updates of the dictionaries. *)
Definition set_joined_tables (f : Z → Z) (p : Player) : Player :=
  mkPlayer (player_id p) (player_username p) (player_first_name p)
    (f (joined_tables p)) (wins p) (referred_by p) (player_promo_code p).

Definition set_wins (f : Z → Z) (p : Player) : Player :=
  mkPlayer (player_id p) (player_username p) (player_first_name p)
    (joined_tables p) (f (wins p)) (referred_by p) (player_promo_code p).

Definition set_referred_by (r : option string) (p : Player) : Player :=
  mkPlayer (player_id p) (player_username p) (player_first_name p)
    (joined_tables p) (wins p) r (player_promo_code p).

Definition set_names (u : option string) (n : option string) (p : Promoter) : Promoter :=
  mkPromoter (promoter_id p) u n (promo_code p) (referred_players p)
    (pending_payout p) (total_paid p).

Definition set_referred_players (f : Z → Z) (p : Promoter) : Promoter :=
  mkPromoter (promoter_id p) (promoter_username p) (promoter_first_name p)
    (promo_code p) (f (referred_players p)) (pending_payout p) (total_paid p).

Definition set_pending_payout (f : float → float) (p : Promoter) : Promoter :=
  mkPromoter (promoter_id p) (promoter_username p) (promoter_first_name p)
    (promo_code p) (referred_players p) (f (pending_payout p)) (total_paid p).

Definition set_table_players (f : list string → list string) (t : Table) : Table :=
  mkTable (table_id t) (status t) (buy_in t) (f (table_players t))
    (winner_id t) (table_promoters t).

Definition set_status (s : Status) (t : Table) : Table :=
  mkTable (table_id t) s (buy_in t) (table_players t) (winner_id t) (table_promoters t).

Definition set_winner_id (w : option string) (t : Table) : Table :=
  mkTable (table_id t) (status t) (buy_in t) (table_players t) w (table_promoters t).

Definition set_tables (f : list (string * Table) → list (string * Table)) (s : State) : State :=
  mkState (f (tables s)) (next_table_id s) (players s) (promoters s).

Definition set_next_table_id (f : Z → Z) (s : State) : State :=
  mkState (tables s) (f (next_table_id s)) (players s) (promoters s).

Definition set_players (f : gmap string Player → gmap string Player) (s : State) : State :=
  mkState (tables s) (next_table_id s) (f (players s)) (promoters s).

Definition set_promoters (f : gmap string Promoter → gmap string Promoter) (s : State) : State :=
  mkState (tables s) (next_table_id s) (players s) (f (promoters s)).

(** A table object is referred to by its position in [tables]; [on_table i f]
    is the in-place mutation of that object. *)
Definition on_table (i : nat) (f : Table → Table) (s : State) : State :=
  set_tables (alter (λ kt, (kt.1, f kt.2)) i) s.

(** ** The state file *)


(** What [STATE_FILE] holds: nothing, bytes that [open] or [json.load] reject
    with exception [e], or the encoding of a document. *)
Inductive FileContent (A : Type) :=
| Unreadable (e : PyErr)
| Json (doc : A).
Arguments Unreadable {A} e.
Arguments Json {A} doc.

Inductive File (A : Type) :=
| Absent
| Present (c : FileContent A).
Arguments Absent {A}.
Arguments Present {A} c.

(** What is found at the path [DATA_DIR]: something that [mkdir] cannot turn
    into a directory (a regular file, a place the process may not write to),
    so that it raises [e]; nothing yet; or a directory, with the state file
    in it. *)
Inductive Disk (A : Type) :=
| NotADirectory (e : PyErr)
| NoDirectory
| Directory (f : File A).
Arguments NotADirectory {A} e.
Arguments NoDirectory {A}.
Arguments Directory {A} f.

(** [DATA_DIR.mkdir(exist_ok=True)], and the state file as it is found
    afterwards. *)
Definition mkdir {A} (d : Disk A) : Exc (File A) :=
  match d with
  | NotADirectory e => Raise e
  | NoDirectory => Ok Absent
  | Directory f => Ok f
  end.

Definition exists_ {A} (f : File A) : bool :=
  match f with Absent => false | Present _ => true end.

Definition json_load {A} (f : File A) : Exc A :=
  match f with
  | Absent => Raise OSError
  | Present (Unreadable e) => Raise e
  | Present (Json doc) => Ok doc
  end.

(** [try: body except Exception: handler]. *)
Definition try_except {A} (body : Exc A) (handler : PyErr → Exc A) : Exc A :=
  match body with
  | Ok a => Ok a
  | Raise e => handler e
  end.

(** [load_state()].  The decoded document is returned as it is, whatever it
    is; [fresh] is the dictionary literal of the other two [return]s. *)
Definition load_state_exc {A} (fresh : A) (d : Disk A) : Exc A :=
  match mkdir d with
  | Raise e => Raise e
  | Ok f =>
      if negb (exists_ f) then Ok fresh
      else try_except (json_load f) (λ _, Ok fresh)
  end.

(** The handlers are followed where the bot runs: in a data directory that
    exists, on a state file that, when it decodes, holds an aggregate (the
    documents that [save_state] writes). *)
Definition StateFile : Type := File State.

(** ** Results and the handler monad *)

(** The messages a handler sends, by kind, with the data they show; their
    wording is not modelled, nor the order of the lines of the promoter list
    (one line per entry of [promoters]). *)
Inductive Reply :=
| Welcome
| Help
| PromoDetails (code : string)
| Stats (p : Player) (pr : option Promoter)
| UseGroupChat
| AlreadyInTable
| PlayerJoined (first_name : string) (tid : Z) (current : nat)
| TableFilled (tid : Z) (mentions : list string)
| NoTables
| TableList (rows : list (Z * Status * nat))
| Usage
| TableNotFound
| TableNotRunning
| WinnerNotInTable
| WinnerDeclared (tid : Z) (name : string)
| NoPromoters
| PromoterList (rows : gmap string Promoter).

(** What a handler does to the outside world, in program order. *)
Inductive Event :=
| ESave (s : State)
| EReply (r : Reply)
| ESend (r : Reply)
| EGetMe.

(** A handler run: the events it emitted and how it ended. *)
Definition M (A : Type) : Type := list Event * Exc A.

Definition prepend {A} (evs : list Event) (m : M A) : M A :=
  let '(evs', r) := m in (evs ++ evs', r).

Global Instance M_ret : MRet M := λ A a, ([], Ok a).
Global Instance M_bind : MBind M := λ A B k m,
  match m with
  | (evs, Ok a) => prepend evs (k a)
  | (evs, Raise e) => (evs, Raise e)
  end.

Definition lift {A} (x : Exc A) : M A := ([], x).
Definition emit (e : Event) : M unit := ([e], Ok tt).

Definition load_state (f : StateFile) : M State :=
  lift (load_state_exc empty_state (Directory f)).
Definition save_state (s : State) : M unit := emit (ESave s).
Definition reply_text (r : Reply) : M unit := emit (EReply r).
Definition send_message (r : Reply) : M unit := emit (ESend r).
Definition get_me : M unit := emit EGetMe.

(** The file after the events of a run: each save overwrites it in full. *)
Definition commit (evs : list Event) (f : StateFile) : StateFile :=
  foldl (λ f e, match e with ESave s => Present (Json s) | _ => f end) f evs.

(** In the data directory [load_state] cannot raise (see [load_state_eq]);
    the aggregate a handler works on is therefore a function of the file. *)
Definition loaded (f : StateFile) : State :=
  match load_state_exc empty_state (Directory f) with
  | Ok s => s
  | Raise _ => empty_state
  end.

(** ** Identity registry *)

Definition new_player (user : User) : Player :=
  {| player_id := user_id user;
     player_username := user_username user;
     player_first_name := user_first_name user;
     joined_tables := 0;
     wins := 0;
     referred_by := None;
     player_promo_code := None |}.

(** The returned dictionary is [players[uid]] of the resulting state. *)
Definition get_or_create_player (state : State) (user : User) : State :=
  let uid := str (user_id user) in
  match players state !! uid with
  | None => set_players (insert uid (new_player user)) state
  | Some _ => state
  end.

Definition new_promoter (user : User) : Promoter :=
  {| promoter_id := user_id user;
     promoter_username := user_username user;
     promoter_first_name := Some (user_first_name user);
     promo_code := "promo_" +:+ str (user_id user);
     referred_players := 0;
     pending_payout := 0.0%float;
     total_paid := 0.0%float |}.

(** The returned dictionary is [promoters[uid]] of the resulting state. *)
Definition get_or_create_promoter (state : State) (user : User) : State :=
  let uid := str (user_id user) in
  match promoters state !! uid with
  | None => set_promoters (insert uid (new_promoter user)) state
  | Some _ => state
  end.

(** The promoter record that [start] registers for a promoter it has never
    seen. *)
Definition promoter_shell (promoter_id : string) (n : Z) : Promoter :=
  {| promoter_id := n;
     promoter_username := None;
     promoter_first_name := None;
     promo_code := "promo_" +:+ promoter_id;
     referred_players := 0;
     pending_payout := 0.0%float;
     total_paid := 0.0%float |}.

(** ** Tables *)

Definition is_open (kt : string * Table) : Prop :=
  status kt.2 = waiting ∧ Z.of_nat (length (table_players kt.2)) < TABLE_SIZE.

Global Instance is_open_dec kt : Decision (is_open kt).
Proof. unfold is_open. apply _. Defined.

(** The first table, in dictionary order, that is waiting and not full: its
    position and its contents. *)
Definition find_waiting_table (state : State) : option (nat * Table) :=
  prod_map id snd <$> list_find is_open (tables state).

(** [d.get(k)] on an insertion-ordered dictionary, with the position of the
    entry. *)
Definition dict_get (k : string) (d : list (string * Table)) : option (nat * Table) :=
  prod_map id snd <$> list_find (λ kt, kt.1 = k) d.

(** [d[k] = v]: an existing key keeps its position, a new key goes last. *)
Definition dict_set (k : string) (v : Table) (d : list (string * Table))
    : list (string * Table) :=
  match dict_get k d with
  | Some (i, _) => <[i := (k, v)]> d
  | None => d ++ [(k, v)]
  end.

Definition new_table (tid : Z) : Table :=
  {| table_id := tid;
     status := waiting;
     buy_in := BUY_IN;
     table_players := [];
     winner_id := None;
     table_promoters := ∅ |}.

(** Returns the new state together with the position and contents of the
    created table. *)
Definition create_table (state : State) : State * (nat * Table) :=
  let tid := next_table_id state in
  let state := set_next_table_id (λ n, n + 1) state in
  let table := new_table tid in
  let key := str tid in
  let i := default (length (tables state)) (fst <$> dict_get key (tables state)) in
  (set_tables (dict_set key table) state, (i, table)).

(** [table = find_waiting_table(state)], and [create_table(state)] when there
    is none. *)
Definition open_table (state : State) : State * (nat * Table) :=
  match find_waiting_table state with
  | Some it => (state, it)
  | None => create_table state
  end.

(** ** Command handlers *)

Definition uid_of (user : User) : string := str (user_id user).

(** The referral branch of [start]: [args[0]] is a promo token and the player
    has no referrer yet. *)
Definition link_referral `{!Unicode} (state : State) (user : User) (arg0 : string) : M State :=
  match (split1 "_" arg0).2 with
  | None => lift (Raise IndexError)
  | Some promoter_id =>
      if bool_decide (promoter_id ≠ uid_of user) then
        let state :=
          set_players (alter (set_referred_by (Some promoter_id)) (uid_of user)) state in
        state ←
          match promoters state !! promoter_id with
          | None =>
              n ← lift (py_int promoter_id);
              mret (set_promoters (insert promoter_id (promoter_shell promoter_id n)) state)
          | Some _ => mret state
          end;
        mret (set_promoters
                (alter (set_referred_players (λ n, n + 1)) promoter_id) state)
      else mret state
  end.

Definition player_referred_by (state : State) (uid : string) : option string :=
  p ← players state !! uid; referred_by p.

Definition start `{!Unicode} (user : User) (args : list string) (f : StateFile) : M unit :=
  state ← load_state f;
  let state := get_or_create_player state user in
  state ←
    match args with
    | arg0 :: _ =>
        if startswith "promo_" arg0
           && bool_decide (player_referred_by state (uid_of user) = None)
        then link_referral state user arg0
        else mret state
    | [] => mret state
    end;
  save_state state;;
  reply_text Welcome.

Definition help_cmd : M unit := reply_text Help.

Definition promo (user : User) (f : StateFile) : M unit :=
  state ← load_state f;
  let state := get_or_create_promoter state user in
  let state :=
    set_promoters
      (alter (set_names (user_username user) (Some (user_first_name user)))
             (uid_of user)) state in
  save_state state;;
  get_me;;
  match promoters state !! uid_of user with
  | None => lift (Raise KeyError)
  | Some promoter => reply_text (PromoDetails (promo_code promoter))
  end.

Definition status_cmd (user : User) (f : StateFile) : M unit :=
  state ← load_state f;
  let state := get_or_create_player state user in
  match players state !! uid_of user with
  | None => lift (Raise KeyError)
  | Some player => reply_text (Stats player (promoters state !! uid_of user))
  end.

(** How the table-start announcement names a player. *)
Definition mention_of (state : State) (pid : string) : option string :=
  p ← players state !! pid;
  Some (if truthy (player_username p)
        then "@" +:+ default "" (player_username p)
        else player_first_name p).

Definition join (chat_type : string) (user : User) (f : StateFile) : M unit :=
  if negb (bool_decide (chat_type ∈ ["group"; "supergroup"])) then
    reply_text UseGroupChat
  else
    state ← load_state f;
    let state := get_or_create_player state user in
    let '(state, (ti, table)) := open_table state in
    let uid := uid_of user in
    if bool_decide (uid ∈ table_players table) then reply_text AlreadyInTable
    else
      let table := set_table_players (λ l, l ++ [uid]) table in
      let state := on_table ti (λ _, table) state in
      let state := set_players (alter (set_joined_tables (λ n, n + 1)) uid) state in
      save_state state;;
      let current := length (table_players table) in
      let remaining := TABLE_SIZE - Z.of_nat current in
      reply_text (PlayerJoined (user_first_name user) (table_id table) current);;
      if bool_decide (remaining ≤ 0) then
        let table := set_status running table in
        let state := on_table ti (λ _, table) state in
        save_state state;;
        send_message
          (TableFilled (table_id table) (omap (mention_of state) (table_players table)))
      else mret tt.

(** The test of the loop in [winner]: player [pid] has a record whose username
    is non-empty and, prefixed with [@], equals [mention] up to letter case. *)
Definition matches `{!Unicode} (state : State) (mention : string) (pid : string) : bool :=
  match players state !! pid with
  | None => false
  | Some p =>
      let uname := player_username p in
      truthy uname && bool_decide ("@" +:+ lower (default "" uname) = lower mention)
  end.

(** The loop of [winner] over the table's players: the first one, in join
    order, whose username matches. *)
Definition find_winner `{!Unicode} (state : State) (table : Table) (mention : string)
    : option string :=
  snd <$> list_find (matches state mention) (table_players table).

Definition accrue (state : State) (promoter_id : option string) : State :=
  if truthy promoter_id then
    match promoter_id with
    | Some r =>
        match promoters state !! r with
        | Some prom =>
            set_promoters
              (insert r (set_pending_payout (λ x, (x + PROMO_BONUS)%float) prom)) state
        | None => state
        end
    | None => state
    end
  else state.

Definition winner_name (p : Player) : string :=
  match player_first_name p with
  | String _ _ as n => n
  | EmptyString =>
      if truthy (player_username p) then default "" (player_username p) else "Winner"
  end.

Section admin.

Context `{!Unicode}.

(** The administrator's user id, read from the environment at start-up. *)
Variable ADMIN_ID : Z.

Definition tables_cmd (user : User) (f : StateFile) : M unit :=
  if bool_decide (user_id user ≠ ADMIN_ID) then mret tt
  else
    state ← load_state f;
    match tables state with
    | [] => reply_text NoTables
    | ts =>
        reply_text
          (TableList ((λ kt, (table_id kt.2, status kt.2, length (table_players kt.2))) <$> ts))
    end.

Definition winner (user : User) (args : list string) (f : StateFile) : M unit :=
  if bool_decide (user_id user ≠ ADMIN_ID) then mret tt
  else
    match args with
    | table_id_str :: mention :: _ =>
        state ← load_state f;
        match dict_get table_id_str (tables state) with
        | None => reply_text TableNotFound
        | Some (ti, table) =>
            if bool_decide (status table ≠ running) then reply_text TableNotRunning
            else
              match find_winner state table mention with
              | None => reply_text WinnerNotInTable
              | Some winner_uid =>
                  let table := set_status finished table in
                  let table := set_winner_id (Some winner_uid) table in
                  let state := on_table ti (λ _, table) state in
                  match players state !! winner_uid with
                  | None => lift (Raise KeyError)
                  | Some winner_player =>
                      let winner_player := set_wins (λ n, n + 1) winner_player in
                      let state :=
                        set_players (insert winner_uid winner_player) state in
                      let state := accrue state (referred_by winner_player) in
                      save_state state;;
                      reply_text
                        (WinnerDeclared (table_id table) (winner_name winner_player))
                  end
              end
        end
    | _ => reply_text Usage
    end.

Definition promostats (user : User) (f : StateFile) : M unit :=
  if bool_decide (user_id user ≠ ADMIN_ID) then mret tt
  else
    state ← load_state f;
    if bool_decide (promoters state = ∅ :> gmap string Promoter) then reply_text NoPromoters
    else reply_text (PromoterList (promoters state)).

(** One inbound command, as dispatched by [main]. *)
Inductive Request :=
| Start (user : User) (args : list string)
| HelpCmd
| Promo (user : User)
| StatusCmd (user : User)
| Join (chat_type : string) (user : User)
| TablesCmd (user : User)
| Winner (user : User) (args : list string)
| Promostats (user : User).

Definition handle (r : Request) (f : StateFile) : M unit :=
  match r with
  | Start user args => start user args f
  | HelpCmd => help_cmd
  | Promo user => promo user f
  | StatusCmd user => status_cmd user f
  | Join chat_type user => join chat_type user f
  | TablesCmd user => tables_cmd user f
  | Winner user args => winner user args f
  | Promostats user => promostats user f
  end.

(** The file left behind by command [r] when its run stops after [n] events,
    because the call that comes next (the transport, or the disk) raised; with
    [n] at least the length of the run, the command ran to completion. *)
Definition after (r : Request) (n : nat) (f : StateFile) : StateFile :=
  commit (take n (handle r f).1) f.

Fixpoint run_all (rs : list (Request * nat)) (f : StateFile) : StateFile :=
  match rs with
  | [] => f
  | (r, n) :: rs => run_all rs (after r n f)
  end.

(** The state files the bot can produce, starting from a file that loads as
    the empty aggregate. *)
Inductive reachable : StateFile → Prop :=
| reach_empty f : loaded f = empty_state → reachable f
| reach_after r n f : reachable f → reachable (after r n f).

End admin.

(** The aggregates written by a run. *)
Definition saves (evs : list Event) : list State :=
  omap (λ e, match e with ESave s => Some s | _ => None end) evs.

(** ** Aggregate invariants *)

Definition table_ok (t : Table) : Prop :=
  NoDup (table_players t)
  ∧ Z.of_nat (length (table_players t)) ≤ TABLE_SIZE
  ∧ (status t ≠ waiting → Z.of_nat (length (table_players t)) = TABLE_SIZE).

Definition tables_ok (s : State) : Prop :=
  Forall (λ kt, table_ok kt.2) (tables s).

(** Every referrer named by a player is a key of [promoters], and the empty
    string is not. *)
Definition refs_ok (s : State) : Prop :=
  promoters s !! "" = None
  ∧ ∀ k p r, players s !! k = Some p → referred_by p = Some r →
      is_Some (promoters s !! r).

(** What every save of every handler maintains, relative to the aggregate the
    handler loaded. *)
Definition preserves (s s' : State) : Prop :=
  (tables_ok s → tables_ok s')
  ∧ (refs_ok s → refs_ok s')
  ∧ (∀ k r, player_referred_by s k = Some r → player_referred_by s' k = Some r).

(** ** The elementary updates behind the handlers *)

(** Every aggregate a handler saves is obtained from the aggregate it loaded
    by a few of these updates: registering a player, creating a table when no
    table has a free seat, seating a player, starting a full table, linking a
    referral, refreshing a promoter record, and declaring a winner. *)
Inductive move `{!Unicode} : State → State → Prop :=
| move_player s user :
    move s (get_or_create_player s user)
| move_table s :
    find_waiting_table s = None →
    move s (create_table s).1
| move_seat s i k t uid :
    tables s !! i = Some (k, t) →
    status t = waiting →
    Z.of_nat (length (table_players t)) < TABLE_SIZE →
    uid ∉ table_players t →
    is_Some (players s !! uid) →
    move s (set_players (alter (set_joined_tables (λ n, n + 1)) uid)
              (on_table i (λ _, set_table_players (λ l, l ++ [uid]) t) s))
| move_run s i k t :
    tables s !! i = Some (k, t) →
    status t = waiting →
    TABLE_SIZE ≤ Z.of_nat (length (table_players t)) →
    move s (on_table i (λ _, set_status running t) s)
| move_link s uid p pid pr0 :
    players s !! uid = Some p →
    referred_by p = None →
    (promoters s !! pid = Some pr0
     ∨ promoters s !! pid = None ∧ ∃ n, py_int pid = Ok n ∧ pr0 = promoter_shell pid n) →
    move s (mkState (tables s) (next_table_id s)
              (alter (set_referred_by (Some pid)) uid (players s))
              (<[pid := set_referred_players (λ n, n + 1) pr0]> (promoters s)))
| move_promo s user :
    move s (set_promoters
              (insert (uid_of user)
                 (set_names (user_username user) (Some (user_first_name user))
                    (default (new_promoter user) (promoters s !! uid_of user)))) s)
| move_winner s i k t w p :
    tables s !! i = Some (k, t) →
    status t = running →
    w ∈ table_players t →
    players s !! w = Some p →
    move s (accrue
              (set_players (insert w (set_wins (λ n, n + 1) p))
                 (on_table i (λ _, set_winner_id (Some w) (set_status finished t)) s))
              (referred_by p)).

(** ** Bookkeeping invariants *)

Definition table_sound (t : Table) : Prop :=
  buy_in t = BUY_IN
  ∧ table_promoters t = ∅
  ∧ (status t = finished ↔ is_Some (winner_id t))
  ∧ (∀ w, winner_id t = Some w → w ∈ table_players t).

Definition players_sound (m : gmap string Player) : Prop :=
  ∀ k p, m !! k = Some p →
    k = str (player_id p) ∧ player_promo_code p = None
    ∧ 0 ≤ joined_tables p ∧ 0 ≤ wins p.

Definition promoters_sound `{!Unicode} (m : gmap string Promoter) : Prop :=
  ∀ k pr, m !! k = Some pr →
    promo_code pr = "promo_" +:+ k
    ∧ py_int k = Ok (promoter_id pr)
    ∧ total_paid pr = 0%float
    ∧ 0 ≤ referred_players pr.

(** Tables are numbered 1, 2, ... in dictionary order and keyed by their
    number; every seated player has a record; every table before the last is
    full; records are keyed by their id and promo codes derive from keys. *)
Definition sound `{!Unicode} (s : State) : Prop :=
  next_table_id s = Z.of_nat (length (tables s)) + 1
  ∧ (∀ i k t, tables s !! i = Some (k, t) →
       table_id t = Z.of_nat i + 1
       ∧ k = str (table_id t)
       ∧ table_sound t
       ∧ (∀ pid, pid ∈ table_players t → is_Some (players s !! pid))
       ∧ ((S i < length (tables s))%nat →
          Z.of_nat (length (table_players t)) = TABLE_SIZE))
  ∧ players_sound (players s)
  ∧ promoters_sound (promoters s).

(** ** History *)

Definition status_le (a b : Status) : bool :=
  match a, b with
  | waiting, _ => true
  | running, waiting => false
  | running, _ => true
  | finished, finished => true
  | finished, _ => false
  end.

Definition table_extends (t t' : Table) : Prop :=
  table_id t' = table_id t
  ∧ buy_in t' = buy_in t
  ∧ status_le (status t) (status t') = true
  ∧ table_players t `prefix_of` table_players t'
  ∧ (∀ w, winner_id t = Some w → winner_id t' = Some w).

Definition player_extends (p p' : Player) : Prop :=
  player_id p' = player_id p
  ∧ player_username p' = player_username p
  ∧ player_first_name p' = player_first_name p
  ∧ joined_tables p ≤ joined_tables p'
  ∧ wins p ≤ wins p'
  ∧ (∀ r, referred_by p = Some r → referred_by p' = Some r).

Definition promoter_extends (pr pr' : Promoter) : Prop :=
  promoter_id pr' = promoter_id pr
  ∧ promo_code pr' = promo_code pr
  ∧ total_paid pr' = total_paid pr
  ∧ referred_players pr ≤ referred_players pr'.

(** Nothing is ever deleted or taken back: [s'] has every table of [s] at the
    same position, every player and every promoter of [s] under the same key,
    each of them grown. *)
Definition extends (s s' : State) : Prop :=
  next_table_id s ≤ next_table_id s'
  ∧ (∀ i k t, tables s !! i = Some (k, t) →
       ∃ t', tables s' !! i = Some (k, t') ∧ table_extends t t')
  ∧ (∀ k p, players s !! k = Some p →
       ∃ p', players s' !! k = Some p' ∧ player_extends p p')
  ∧ (∀ k pr, promoters s !! k = Some pr →
       ∃ pr', promoters s' !! k = Some pr' ∧ promoter_extends pr pr').

(** ** The counters as tallies *)

(** The number of tables that list player [uid]. *)
Definition seats (uid : string) (l : list (string * Table)) : nat :=
  length (filter (λ kt, uid ∈ table_players kt.2) l).

(** The number of tables whose recorded winner is [uid]. *)
Definition victories (uid : string) (l : list (string * Table)) : nat :=
  length (filter (λ kt, winner_id kt.2 = Some uid) l).

(** The number of players whose referrer is [r]. *)
Definition referrals (r : string) (m : gmap string Player) : nat :=
  size (filter (λ kp, referred_by kp.2 = Some r) m).

(** Each stored counter equals the tally it stands for. *)
Definition ledger (s : State) : Prop :=
  (∀ k p, players s !! k = Some p →
     joined_tables p = Z.of_nat (seats k (tables s))
     ∧ wins p = Z.of_nat (victories k (tables s)))
  ∧ (∀ k pr, promoters s !! k = Some pr →
       referred_players pr = Z.of_nat (referrals k (players s))).

(** ** Letter case *)

(** The capital letters with their small forms. *)
Definition letters : list (ascii * ascii) :=
  zip (list_ascii_of_string "ABCDEFGHIJKLMNOPQRSTUVWXYZ")
      (list_ascii_of_string "abcdefghijklmnopqrstuvwxyz").

(** Two characters that are equal or the two forms of one letter. *)
Definition same_letter (a b : ascii) : bool :=
  bool_decide (a = b ∨ (a, b) ∈ letters ∨ (b, a) ∈ letters).

(** Two texts that differ at most in the case of their letters. *)
Fixpoint equal_ignoring_case (s t : string) : bool :=
  match s, t with
  | EmptyString, EmptyString => true
  | String a s', String b t' => same_letter a b && equal_ignoring_case s' t'
  | _, _ => false
  end.

(** Player [pid] is the one a selector names: the stored username is not
    empty and, with [@] in front, is the selector up to letter case. *)
Definition named_by (state : State) (mention : string) (pid : string) : Prop :=
  ∃ p uname, players state !! pid = Some p
    ∧ player_username p = Some uname ∧ uname ≠ ""
    ∧ equal_ignoring_case ("@" +:+ uname) mention = true.

(** ** Sample data *)

(** The sample runs carry ASCII text only, on which the character database
    is never consulted; they are computed with an empty one. *)
Definition ascii_only : Unicode :=
  {| lower_unicode := λ s, s; int_unicode := λ _, None |}.

Global Existing Instance ascii_only.

Definition alice : User := mkUser 1 (Some "alice") "Alice".
Definition bob : User := mkUser 2 (Some "Bob") "Bob".
Definition carol : User := mkUser 3 None "Carol".
Definition dave : User := mkUser 4 (Some "dave") "Dave".
Definition erin : User := mkUser 5 (Some "erin") "Erin".
Definition frank : User := mkUser 6 (Some "frank") "Frank".
Definition admin : User := mkUser 99 (Some "boss") "Boss".

(** Alice opens the bot through Bob's referral link before Bob has ever used
    the bot. *)
Definition referred_file : StateFile :=
  after 99 (Start alice ["promo_2"]) 9 Absent.

Definition bob_shell : Promoter :=
  set_referred_players (λ _, 1) (promoter_shell "2" 2).

(** Alice opens the bot without a referral link. *)
Definition plain_file : StateFile :=
  after 99 (Start alice []) 9 Absent.

(** After Alice's referred start, Alice, Bob, Carol and Dave join in the
    group chat; every run completes. *)
Definition four_seated : StateFile :=
  run_all 99
    [(Join "group" alice, 9%nat); (Join "group" bob, 9%nat);
     (Join "supergroup" carol, 9%nat); (Join "group" dave, 9%nat)]
    referred_file.

(** Erin takes the last seat of table 1. *)
Definition table_full : StateFile := after 99 (Join "group" erin) 9 four_seated.

(** The same join when the transport raises on the "joined" reply: only the
    first event of the run, the first save, took effect. *)
Definition stuck_file : StateFile := after 99 (Join "group" erin) 1 four_seated.

(** Frank joins after table 1 has filled. *)
Definition six_joined : StateFile := after 99 (Join "group" frank) 9 table_full.

Definition table_one (st : Status) (w : option string) : Table :=
  mkTable 1 st 5 ["1"; "2"; "3"; "4"; "5"] w ∅.

(** * Properties *)

(** ** The handler monad *)

Lemma load_state_eq f : load_state f = ([], Ok (loaded f)).
Proof. by destruct f as [|[e|s]]. Qed.

Lemma bind_ok {A B} evs (a : A) (k : A → M B) :
  (evs, Ok a) ≫= k = prepend evs (k a).
Proof. done. Qed.

Lemma bind_mret {A B} (a : A) (k : A → M B) : mret a ≫= k = k a.
Proof. unfold mret, M_ret. rewrite bind_ok. by destruct (k a). Qed.

Lemma bind_raise {A B} evs e (k : A → M B) : (evs, Raise e) ≫= k = (evs, Raise e).
Proof. done. Qed.

Lemma prepend_nil {A} (m : M A) : prepend [] m = m.
Proof. by destruct m. Qed.

Lemma bind_emit {B} e (k : unit → M B) : emit e ≫= k = prepend [e] (k tt).
Proof. done. Qed.

Lemma commit_cons e evs f :
  commit (e :: evs) f
  = commit evs (match e with ESave s => Present (Json s) | _ => f end).
Proof. done. Qed.

Lemma loaded_json s : loaded (Present (Json s)) = s.
Proof. done. Qed.

(** An interrupted run leaves either the old file or one of its saves. *)
Lemma commit_take n evs f :
  commit (take n evs) f = f
  ∨ ∃ s, s ∈ saves evs ∧ commit (take n evs) f = Present (Json s).
Proof.
  revert n f. induction evs as [|e evs IH]; intros n f.
  { rewrite take_nil. by left. }
  destruct n as [|n]; [by left|].
  rewrite firstn_cons, commit_cons.
  destruct (IH n (match e with ESave s => Present (Json s) | _ => f end))
    as [Heq|(s & Hs & Heq)].
  - rewrite Heq. destruct e as [s| | |]; try by left.
    right. exists s. split; [|done]. unfold saves. simpl. left.
  - right. exists s. split; [|done].
    unfold saves in *. destruct e; simpl; try done. by right.
Qed.

(** ** Strings *)

Lemma startswith_app p s : startswith p (p +:+ s) = true.
Proof. induction p; simpl; [done|]. by rewrite decide_True. Qed.

Lemma split1_promo x : split1 "_" ("promo_" +:+ x) = ("promo", Some x).
Proof. reflexivity. Qed.

(** ** State store *)

(** Within the data directory, on a state file as [save_state] writes it,
    [load_state] cannot raise: the handlers always get an aggregate. *)
Lemma load_state_in_directory f : ∃ s, load_state f = ([], Ok s).
Proof. destruct f as [|[e|s]]; by eexists. Qed.




(** ** Identity registry *)

Lemma get_or_create_player_id state user p :
  players state !! uid_of user = Some p → get_or_create_player state user = state.
Proof. unfold get_or_create_player, uid_of. by intros ->. Qed.

Lemma get_or_create_player_referred state user k :
  player_referred_by (get_or_create_player state user) k = player_referred_by state k.
Proof.
  unfold get_or_create_player, player_referred_by.
  destruct (players state !! str (user_id user)) eqn:E; [done|]. simpl.
  destruct (decide (k = str (user_id user))) as [->|].
  - by rewrite lookup_insert_eq, E.
  - by rewrite lookup_insert_ne.
Qed.

Lemma get_or_create_player_promoters state user :
  promoters (get_or_create_player state user) = promoters state.
Proof. unfold get_or_create_player. by case_match. Qed.

Lemma get_or_create_player_tables state user :
  tables (get_or_create_player state user) = tables state.
Proof. unfold get_or_create_player. by case_match. Qed.

(** ** Referrals *)

(** A token that spells the acting user's own id as [str] does is ignored:
    [start] saves the loaded aggregate with at most the user's fresh player
    record added, so the user's [referred_by] is as it was and no promoter
    record changes. *)
Lemma self_referral_ignored `{U : Unicode} (user : User) (rest : list string) (f : StateFile) :
  let token := "promo_" +:+ str (user_id user) in
  let s' := get_or_create_player (loaded f) user in
  start user (token :: rest) f = ([ESave s'; EReply Welcome], Ok tt)
  ∧ player_referred_by s' (uid_of user) = player_referred_by (loaded f) (uid_of user)
  ∧ promoters s' = promoters (loaded f).
Proof.
  intros token s'. subst token. split_and!.
  - unfold start. rewrite load_state_eq, bind_ok, prepend_nil.
    rewrite startswith_app. unfold link_referral. rewrite split1_promo. cbn [snd].
    rewrite (bool_decide_eq_false_2 (str (user_id user) ≠ uid_of user))
      by (unfold uid_of; naive_solver).
    by rewrite Tauto.if_same, bind_mret.
  - apply get_or_create_player_referred.
  - apply get_or_create_player_promoters.
Qed.

(** The self-referral test is the literal comparison with [str(user.id)]: a
    token that spells the user's own id differently is a referral like any
    other, registered under the spelling used. *)
Example padded_token_is_not_literal :
  player_referred_by (loaded (after 99 (Start alice ["promo_01"]) 9 Absent)) "1"
  = Some "01".
Proof. reflexivity. Qed.

(** C3, as stated, fails: Alice already has a player record from a plain
    [/start]; a later [/start promo_2] still sets her [referred_by] and counts
    her for promoter 2. *)
Lemma referral_after_first_contact :
  ¬ (∀ (user : User) (args : list string) (f : StateFile) (p : Player) (s' : State),
       players (loaded f) !! uid_of user = Some p →
       s' ∈ saves (start user args f).1 →
       player_referred_by s' (uid_of user) = referred_by p
       ∧ ∀ k, referred_players <$> promoters s' !! k
              = referred_players <$> promoters (loaded f) !! k).
Proof.
  intros H.
  destruct (H alice ["promo_2"] plain_file (new_player alice)
              (loaded (commit (start alice ["promo_2"] plain_file).1 plain_file)))
    as [Href _].
  - by vm_compute.
  - assert (saves (start alice ["promo_2"] plain_file).1
            = [loaded (commit (start alice ["promo_2"] plain_file).1 plain_file)])
      as -> by (vm_compute; reflexivity).
    apply list_elem_of_here.
  - vm_compute in Href. discriminate.
Qed.

(** C3, amended: linking is guarded by the player's [referred_by], not by the
    age of the record.  When the acting player already has a referrer, [start]
    saves the loaded aggregate as it is, whatever its arguments: no
    [referred_by] and no [referred_players] count changes. *)
Theorem referral_only_without_referrer `{U : Unicode}
    (user : User) (args : list string) (f : StateFile) (r : string) :
  player_referred_by (loaded f) (uid_of user) = Some r →
  start user args f = ([ESave (loaded f); EReply Welcome], Ok tt)
  ∧ ∀ s', s' ∈ saves (start user args f).1 →
      player_referred_by s' (uid_of user) = Some r
      ∧ ∀ k, referred_players <$> promoters s' !! k
             = referred_players <$> promoters (loaded f) !! k.
Proof.
  intros Hr.
  assert (start user args f = ([ESave (loaded f); EReply Welcome], Ok tt)) as Heq.
  { unfold start. rewrite load_state_eq, bind_ok, prepend_nil.
    assert (∃ p, players (loaded f) !! uid_of user = Some p) as [p Hp].
    { unfold player_referred_by in Hr.
      destruct (players (loaded f) !! uid_of user); [eauto|done]. }
    rewrite (get_or_create_player_id _ _ _ Hp).
    destruct args as [|arg0 args]; [by rewrite bind_mret|].
    rewrite (bool_decide_eq_false_2 (player_referred_by _ _ = None))
      by (rewrite Hr; done).
    by rewrite andb_false_r, bind_mret. }
  split; [done|]. rewrite Heq. simpl.
  intros s' ->%list_elem_of_singleton. done.
Qed.

Lemma referral_only_without_referrer_witness :
  player_referred_by (loaded referred_file) (uid_of alice) = Some "2"
  ∧ start alice ["promo_3"] referred_file
    = ([ESave (loaded referred_file); EReply Welcome], Ok tt).
Proof.
  split; [reflexivity|].
  apply (referral_only_without_referrer alice ["promo_3"] referred_file "2").
  reflexivity.
Defined.

(** C8: when the user already has a promoter record, [promo] saves the loaded
    aggregate with that record's username and first name taken from the user;
    the record's counters, balances and promo code, and every other record,
    are as before. *)
Theorem promo_fills_names (user : User) (f : StateFile) (pr : Promoter) :
  promoters (loaded f) !! uid_of user = Some pr →
  let pr' := set_names (user_username user) (Some (user_first_name user)) pr in
  let s' := set_promoters (insert (uid_of user) pr') (loaded f) in
  promo user f = ([ESave s'; EGetMe; EReply (PromoDetails (promo_code pr))], Ok tt)
  ∧ promoters s' !! uid_of user = Some pr'
  ∧ promoter_username pr' = user_username user
  ∧ promoter_first_name pr' = Some (user_first_name user)
  ∧ referred_players pr' = referred_players pr
  ∧ pending_payout pr' = pending_payout pr
  ∧ total_paid pr' = total_paid pr
  ∧ promo_code pr' = promo_code pr
  ∧ (∀ k, k ≠ uid_of user → promoters s' !! k = promoters (loaded f) !! k)
  ∧ players s' = players (loaded f)
  ∧ tables s' = tables (loaded f).
Proof.
  intros Hpr pr' s'. split_and!; try done.
  - unfold promo. rewrite load_state_eq, bind_ok, prepend_nil.
    unfold get_or_create_promoter. fold (uid_of user). rewrite Hpr.
    unfold set_promoters at 1 2. cbn [tables next_table_id players promoters].
    rewrite (alter_alt_Some _ _ _ _ Hpr). fold pr'.
    unfold save_state, get_me. rewrite !bind_emit.
    by rewrite lookup_insert_eq.
  - apply lookup_insert_eq.
  - intros k Hk. simpl. by rewrite lookup_insert_ne.
Qed.

Lemma promo_fills_names_witness :
  promoters (loaded referred_file) !! uid_of bob = Some bob_shell
  ∧ promoters
      (set_promoters
         (insert (uid_of bob) (set_names (Some "Bob") (Some "Bob") bob_shell))
         (loaded referred_file)) !! uid_of bob
    = Some (mkPromoter 2 (Some "Bob") (Some "Bob") "promo_2" 1 0.0%float 0.0%float).
Proof.
  split; [reflexivity|].
  destruct (promo_fills_names bob referred_file bob_shell) as (_ & H & _);
    [reflexivity|].
  exact H.
Defined.

(** ** Facts about [str] and [int] *)

Lemma pretty_N_go_length x s :
  (String.length s ≤ String.length (pretty_N_go x s))%nat.
Proof.
  revert s. induction (N.lt_wf_0 x) as [x _ IH]; intros s.
  destruct (decide (x = 0%N)) as [->|]; [by rewrite pretty_N_go_0|].
  rewrite pretty_N_go_step by lia.
  etrans; [|apply IH, N.div_lt; lia]. simpl. lia.
Qed.

Lemma str_nonempty n : str n ≠ "".
Proof.
  unfold str, pretty, pretty_Z. destruct n as [|p|p]; [done| |done].
  unfold pretty, pretty_positive, pretty, pretty_N.
  rewrite decide_False by done. rewrite pretty_N_go_step by lia.
  intros H.
  pose proof (pretty_N_go_length (N.pos p `div` 10)
                (String (pretty_N_char (N.pos p `mod` 10)) "")) as Hlen.
  rewrite H in Hlen. simpl in Hlen. lia.
Qed.

Lemma py_int_nonempty `{U : Unicode} s n : py_int s = Ok n → s ≠ "".
Proof. by intros H ->. Qed.

(** ** Tables *)

Lemma dict_get_Some k d i t : dict_get k d = Some (i, t) → d !! i = Some (k, t).
Proof.
  unfold dict_get. intros H.
  destruct (list_find _ d) as [[j [k' t']]|] eqn:E; simplify_eq/=.
  by apply list_find_Some in E as (? & <- & _).
Qed.

Lemma find_waiting_table_Some s i t :
  find_waiting_table s = Some (i, t) →
  (∃ k, tables s !! i = Some (k, t))
  ∧ status t = waiting ∧ Z.of_nat (length (table_players t)) < TABLE_SIZE.
Proof.
  unfold find_waiting_table. intros H.
  destruct (list_find _ _) as [[j [k' t']]|] eqn:E; simplify_eq/=.
  apply list_find_Some in E as (? & [??] & _). eauto.
Qed.

Lemma table_ok_new tid : table_ok (new_table tid).
Proof. split_and!; simpl; [constructor|done|done]. Qed.

Lemma Forall_dict_set (P : string * Table → Prop) k v d :
  Forall P d → P (k, v) → Forall P (dict_set k v d).
Proof.
  intros Hd Hv. unfold dict_set. destruct (dict_get k d) as [[i ?]|].
  - by apply Forall_insert.
  - apply Forall_app. split; [done|]. by constructor.
Qed.

Lemma create_table_spec s s' i t :
  create_table s = (s', (i, t)) →
  players s' = players s ∧ promoters s' = promoters s
  ∧ t = new_table (next_table_id s)
  ∧ (∃ k, tables s' !! i = Some (k, t))
  ∧ (tables_ok s → tables_ok s').
Proof.
  unfold create_table. intros [= <- <- <-]. split_and!; try done.
  - exists (str (next_table_id s)). simpl. unfold dict_set.
    destruct (dict_get _ _) as [[j t']|] eqn:E; simpl.
    + apply list_lookup_insert_eq. apply dict_get_Some in E.
      by eapply lookup_lt_Some.
    + rewrite lookup_app_r by done. by rewrite Nat.sub_diag.
  - intros H. apply Forall_dict_set; [done|]. apply table_ok_new.
Qed.

Lemma open_table_spec s s' i t :
  open_table s = (s', (i, t)) →
  players s' = players s ∧ promoters s' = promoters s
  ∧ (∃ k, tables s' !! i = Some (k, t))
  ∧ status t = waiting ∧ Z.of_nat (length (table_players t)) < TABLE_SIZE
  ∧ (tables_ok s → tables_ok s').
Proof.
  unfold open_table. destruct (find_waiting_table s) as [[j t']|] eqn:E.
  - intros [= <- <- <-]. apply find_waiting_table_Some in E as (? & ? & ?).
    by split_and!.
  - intros (? & ? & -> & ? & ?)%create_table_spec. by split_and!.
Qed.

Lemma tables_ok_on_table i t' s :
  tables_ok s → table_ok t' → tables_ok (on_table i (λ _, t') s).
Proof.
  unfold tables_ok, on_table. simpl. intros H Ht.
  apply Forall_alter; [done|]. by intros [??] _ _.
Qed.

Lemma tables_ok_lookup s i k t : tables_ok s → tables s !! i = Some (k, t) → table_ok t.
Proof. intros H Hi. exact (Forall_lookup_1 _ _ _ _ H Hi). Qed.

(** ** Preservation by the state updates *)

Lemma preserves_refl s : preserves s s.
Proof. by split_and!. Qed.

Lemma preserves_trans s1 s2 s3 : preserves s1 s2 → preserves s2 s3 → preserves s1 s3.
Proof. intros (?&?&?) (?&?&?). split_and!; eauto. Qed.

(** An update that keeps every player's [referred_by] and every promoter
    key. *)
Lemma preserves_same_refs s s' :
  (tables_ok s → tables_ok s') →
  (promoters s !! "" = None → promoters s' !! "" = None) →
  (∀ k, is_Some (promoters s !! k) → is_Some (promoters s' !! k)) →
  (∀ k, referred_by <$> players s' !! k = referred_by <$> players s !! k) →
  preserves s s'.
Proof.
  intros Ht He Hpr Hpl. split_and!; [done| |].
  - intros [He' Hr]. split; [by apply He|]. intros k p r Hk Hp.
    apply Hpr. specialize (Hpl k). rewrite Hk in Hpl. simpl in Hpl.
    destruct (players s !! k) as [p0|] eqn:E; simplify_eq/=.
    eapply Hr; [done|]. congruence.
  - intros k r. unfold player_referred_by. specialize (Hpl k).
    destruct (players s !! k), (players s' !! k); simplify_eq/=; congruence.
Qed.

Lemma preserves_get_or_create_player s user :
  preserves s (get_or_create_player s user).
Proof.
  split_and!.
  - unfold tables_ok. by rewrite get_or_create_player_tables.
  - intros [He Hr]. split; [by rewrite get_or_create_player_promoters|].
    intros k p r Hk Hp. rewrite get_or_create_player_promoters.
    unfold get_or_create_player in Hk.
    destruct (players s !! str (user_id user)) eqn:E; [by eapply Hr|].
    simpl in Hk. apply lookup_insert_Some in Hk as [[_ <-]|[_ Hk]]; [done|].
    by eapply Hr.
  - intros k r. by rewrite get_or_create_player_referred.
Qed.

(** ** Enrollment *)

Lemma join_outside_group chat_type user f :
  chat_type ∉ ["group"; "supergroup"] →
  join chat_type user f = ([EReply UseGroupChat], Ok tt).
Proof. intros H. unfold join. by rewrite bool_decide_eq_false_2. Qed.

(** The run of [join] in a group chat, by cases on the table it picked. *)
Lemma join_events chat_type user f s1 ti t :
  chat_type ∈ ["group"; "supergroup"] →
  open_table (get_or_create_player (loaded f) user) = (s1, (ti, t)) →
  let uid := uid_of user in
  let t1 := set_table_players (λ l, l ++ [uid]) t in
  let sa :=
    set_players (alter (set_joined_tables (λ n, n + 1)) uid)
      (on_table ti (λ _, t1) s1) in
  let sb := on_table ti (λ _, set_status running t1) sa in
  let joined :=
    EReply (PlayerJoined (user_first_name user) (table_id t)
              (length (table_players t1))) in
  join chat_type user f =
    if bool_decide (uid ∈ table_players t) then ([EReply AlreadyInTable], Ok tt)
    else if bool_decide (TABLE_SIZE - Z.of_nat (length (table_players t1)) ≤ 0)
    then ([ESave sa; joined; ESave sb;
           ESend (TableFilled (table_id t) (omap (mention_of sb) (table_players t1)))],
          Ok tt)
    else ([ESave sa; joined], Ok tt).
Proof.
  intros Hchat Hopen uid t1 sa sb joined. unfold join.
  rewrite bool_decide_eq_true_2 by done. cbn [negb].
  rewrite load_state_eq, bind_ok, prepend_nil, Hopen. fold uid.
  case_bool_decide; [done|]. fold t1. fold sa.
  unfold save_state, reply_text, send_message. rewrite !bind_emit.
  by case_bool_decide.
Qed.

Lemma referred_alter_joined (m : gmap string Player) uid k :
  referred_by <$> alter (set_joined_tables (λ n, n + 1)) uid m !! k
  = referred_by <$> m !! k.
Proof.
  destruct (decide (uid = k)) as [->|].
  - rewrite lookup_alter_eq. by destruct (m !! k).
  - by rewrite lookup_alter_ne.
Qed.

Lemma join_preserves chat_type user f s' :
  s' ∈ saves (join chat_type user f).1 → preserves (loaded f) s'.
Proof.
  destruct (decide (chat_type ∈ ["group"; "supergroup"])) as [Hchat|Hchat];
    [|rewrite join_outside_group by done; by intros ?%elem_of_nil].
  destruct (open_table (get_or_create_player (loaded f) user))
    as [s1 [ti t]] eqn:Hopen.
  rewrite (join_events _ _ _ _ _ _ Hchat Hopen).
  destruct (open_table_spec _ _ _ _ Hopen) as (Hpl & Hpr & [k Hk] & Hw & Hlen & Hok).
  set (uid := uid_of user). set (t1 := set_table_players (λ l, l ++ [uid]) t).
  case_bool_decide as Hdup; [by intros ?%elem_of_nil|].
  assert (tables_ok s1 → table_ok t1) as Ht1.
  { intros H. destruct (tables_ok_lookup _ _ _ _ H Hk) as (Hnd & _ & _).
    split_and!; simpl.
    - apply NoDup_app. split_and!; [done| |apply NoDup_singleton].
      intros x Hx ->%list_elem_of_singleton. done.
    - rewrite length_app. simpl. lia.
    - by rewrite Hw. }
  set (sa := set_players _ _).
  assert (preserves (get_or_create_player (loaded f) user) sa) as Hsa.
  { apply preserves_same_refs; simpl.
    - intros H. apply (tables_ok_on_table ti t1 s1); auto.
    - by rewrite Hpr.
    - intros k'. by rewrite Hpr.
    - intros k'. by rewrite referred_alter_joined, Hpl. }
  assert (TABLE_SIZE - Z.of_nat (length (table_players t1)) ≤ 0 →
          preserves sa (on_table ti (λ _, set_status running t1) sa)) as Hsb.
  { intros Hfull. apply preserves_same_refs; simpl; try done.
    intros H. apply tables_ok_on_table; [done|].
    assert (table_ok t1) as (Hnd & Hle & _).
    { eapply (tables_ok_lookup sa ti k). { done. }
      unfold sa. simpl. rewrite list_lookup_alter_eq, Hk. done. }
    split_and!; [done|done|intros _]. simpl in *. lia. }
  pose proof (preserves_get_or_create_player (loaded f) user) as H0.
  case_bool_decide as Hfull; simpl; intros Hs'.
  - apply elem_of_cons in Hs' as [->|Hs'].
    { by eapply preserves_trans. }
    apply list_elem_of_singleton in Hs' as ->.
    eapply preserves_trans; [done|]. eapply preserves_trans; [done|]. by apply Hsb.
  - apply list_elem_of_singleton in Hs' as ->. by eapply preserves_trans.
Qed.

(** ** Promoter materials *)

Lemma promo_events user f :
  let pr := default (new_promoter user) (promoters (loaded f) !! uid_of user) in
  let pr' := set_names (user_username user) (Some (user_first_name user)) pr in
  promo user f
  = ([ESave (set_promoters (insert (uid_of user) pr') (loaded f));
      EGetMe; EReply (PromoDetails (promo_code pr))], Ok tt).
Proof.
  intros pr pr'. unfold promo. rewrite load_state_eq, bind_ok, prepend_nil.
  unfold save_state, get_me. rewrite !bind_emit.
  assert (set_promoters
            (alter (set_names (user_username user) (Some (user_first_name user)))
                   (uid_of user))
            (get_or_create_promoter (loaded f) user)
          = set_promoters (insert (uid_of user) pr') (loaded f)) as ->.
  { unfold get_or_create_promoter, set_promoters, pr', pr. fold (uid_of user).
    destruct (promoters (loaded f) !! uid_of user) as [p|] eqn:E; simpl; f_equal.
    - by apply alter_alt_Some.
    - by rewrite alter_insert_eq. }
  simpl. by rewrite lookup_insert_eq.
Qed.

Lemma promo_preserves user f s' :
  s' ∈ saves (promo user f).1 → preserves (loaded f) s'.
Proof.
  rewrite promo_events. simpl. intros ->%list_elem_of_singleton.
  apply preserves_same_refs; simpl; try done.
  - intros H. rewrite lookup_insert_ne; [done|]. apply str_nonempty.
  - intros k Hk. by apply lookup_insert_is_Some'; right.
Qed.

(** ** Referral linking *)

Lemma link_referral_ok `{U : Unicode} s user arg0 evs s' :
  link_referral s user arg0 = (evs, Ok s') →
  evs = []
  ∧ (s' = s
     ∨ ∃ pid pr0,
         (split1 "_" arg0).2 = Some pid ∧ pid ≠ uid_of user
         ∧ (promoters s !! pid = Some pr0
            ∨ promoters s !! pid = None
              ∧ ∃ n, py_int pid = Ok n ∧ pr0 = promoter_shell pid n)
         ∧ s' = mkState (tables s) (next_table_id s)
                  (alter (set_referred_by (Some pid)) (uid_of user) (players s))
                  (<[pid := set_referred_players (λ n, n + 1) pr0]> (promoters s))).
Proof.
  unfold link_referral. destruct (split1 "_" arg0).2 as [pid|]; [|done].
  case_bool_decide as Hne; [|rewrite bind_mret || idtac; intros [= <- <-]; auto].
  cbn [promoters set_players].
  destruct (promoters s !! pid) as [pr0|] eqn:E.
  - rewrite bind_mret. intros [= <- <-]. split; [done|]. right.
    exists pid, pr0. split_and!; auto.
    unfold set_promoters, set_players. simpl. f_equal. by apply alter_alt_Some.
  - unfold lift. destruct (py_int pid) as [n|e] eqn:Hn; [|done].
    rewrite bind_ok, prepend_nil, bind_mret. intros [= <- <-]. split; [done|]. right.
    exists pid, (promoter_shell pid n). split_and!; eauto.
    unfold set_promoters, set_players. simpl. f_equal. by rewrite alter_insert_eq.
Qed.

Lemma link_referral_events `{U : Unicode} s user arg0 : (link_referral s user arg0).1 = [].
Proof.
  unfold link_referral. destruct (split1 "_" arg0).2 as [pid|]; [|done].
  case_bool_decide; [|done]. cbn [promoters set_players].
  destruct (promoters s !! pid); [by rewrite bind_mret|].
  unfold lift. by destruct (py_int pid).
Qed.

(** The run of [start]: the state it computes is saved once, and nothing is
    saved when computing it raised. *)
Lemma start_saves `{U : Unicode} user args f s' :
  let s0 := get_or_create_player (loaded f) user in
  s' ∈ saves (start user args f).1 →
  start user args f = ([ESave s'; EReply Welcome], Ok tt)
  ∧ (s' = s0
     ∨ player_referred_by s0 (uid_of user) = None
       ∧ ∃ arg0 rest, args = arg0 :: rest ∧ startswith "promo_" arg0 = true
           ∧ link_referral s0 user arg0 = ([], Ok s')).
Proof.
  intros s0. unfold start. rewrite load_state_eq, bind_ok, prepend_nil. fold s0.
  destruct args as [|arg0 rest].
  { rewrite bind_mret. simpl. intros ->%list_elem_of_singleton. auto. }
  destruct (startswith "promo_" arg0) eqn:Hsw; cbn [andb];
    [|rewrite bind_mret; simpl; intros ->%list_elem_of_singleton; auto].
  case_bool_decide as Hnone;
    [|rewrite bind_mret; simpl; intros ->%list_elem_of_singleton; auto].
  pose proof (link_referral_events s0 user arg0) as Hev.
  destruct (link_referral s0 user arg0) as [evs [s1|e]] eqn:Hlink;
    simpl in Hev; subst evs.
  - rewrite bind_ok, prepend_nil. simpl. intros ->%list_elem_of_singleton.
    split; [done|]. right. split; [done|]. by exists arg0, rest.
  - rewrite bind_raise. simpl. by intros ?%elem_of_nil.
Qed.

Lemma start_preserves `{U : Unicode} user args f s' :
  s' ∈ saves (start user args f).1 → preserves (loaded f) s'.
Proof.
  intros [_ Hs']%start_saves.
  eapply preserves_trans; [apply preserves_get_or_create_player|].
  destruct Hs' as [->|(Hnone & arg0 & rest & _ & _ & Hlink)]; [apply preserves_refl|].
  apply link_referral_ok in Hlink as [_ [->|(pid & pr0 & _ & Hne & Hpr0 & ->)]];
    [apply preserves_refl|].
  set (s0 := get_or_create_player (loaded f) user) in *.
  split_and!; [done| |].
  - intros [He Hr]. simpl.
    assert (pid ≠ "") as Hpid.
    { destruct Hpr0 as [Hp|(_ & n & Hn & _)];
        [congruence|by eapply py_int_nonempty]. }
    split; simpl; [by rewrite lookup_insert_ne|].
    intros k p r Hk Hp.
    destruct (decide (r = pid)) as [->|]; [by rewrite lookup_insert_eq|].
    rewrite lookup_insert_ne by done.
    apply lookup_alter_Some in Hk as [(<- & p0 & Hp0 & ->)|[_ Hk]].
    + simpl in Hp. congruence.
    + by eapply Hr.
  - intros k r. unfold player_referred_by. simpl.
    destruct (decide (k = uid_of user)) as [->|].
    + unfold player_referred_by in Hnone. congruence.
    + by rewrite lookup_alter_ne.
Qed.

(** ** Winner declaration *)

Lemma find_winner_Some `{U : Unicode} s t mention w :
  find_winner s t mention = Some w ↔
  ∃ i, table_players t !! i = Some w
       ∧ matches s mention w = true
       ∧ ∀ j q, table_players t !! j = Some q → (j < i)%nat →
           matches s mention q = false.
Proof.
  unfold find_winner. split.
  - intros H. destruct (list_find _ _) as [[i w']|] eqn:E; simplify_eq/=.
    apply list_find_Some in E as (Hi & Hm & Hfirst). exists i. split_and!.
    + done.
    + by apply Is_true_true.
    + intros j q Hj Hlt. apply Is_true_false. eauto.
  - intros (i & Hi & Hm & Hfirst).
    assert (list_find (λ pid, matches s mention pid) (table_players t) = Some (i, w))
      as ->; [|done].
    apply list_find_Some. split_and!; [done|by apply Is_true_true|].
    intros j q Hj Hlt. apply Is_true_false. eauto.
Qed.

Lemma find_winner_None `{U : Unicode} s t mention :
  find_winner s t mention = None ↔
  ∀ q, q ∈ table_players t → matches s mention q = false.
Proof.
  unfold find_winner. rewrite fmap_None, list_find_None, Forall_forall.
  by setoid_rewrite Is_true_false.
Qed.

Lemma matches_record `{U : Unicode} s mention pid :
  matches s mention pid = true →
  ∃ p uname, players s !! pid = Some p
    ∧ player_username p = Some uname ∧ uname ≠ ""
    ∧ "@" +:+ lower uname = lower mention.
Proof.
  unfold matches. destruct (players s !! pid) as [p|]; [|done].
  destruct (player_username p) as [[|c u]|] eqn:E; cbn [truthy andb default]; try done.
  intros H. apply bool_decide_eq_true_1 in H. by exists p, (String c u).
Qed.

Lemma accrue_cases s r :
  accrue s r = s ∧ (r = None ∨ r = Some "" ∨ ∃ x, r = Some x ∧ promoters s !! x = None)
  ∨ ∃ x pr, r = Some x ∧ x ≠ "" ∧ promoters s !! x = Some pr
      ∧ accrue s r
        = set_promoters
            (insert x (set_pending_payout (λ v, (v + PROMO_BONUS)%float) pr)) s.
Proof.
  unfold accrue. destruct r as [[|c x]|]; simpl; auto.
  destruct (promoters s !! String c x) as [pr|] eqn:E.
  - right. by exists (String c x), pr.
  - left. split; [done|]. right; right. eauto.
Qed.

Lemma on_table_tables s i k t t' :
  tables s !! i = Some (k, t) →
  tables (on_table i (λ _, t') s) = <[i := (k, t')]> (tables s).
Proof.
  intros Hi. unfold on_table. simpl. rewrite list_insert_alter.
  apply list_alter_ext; [|done]. by intros [??] [= -> ->]%(eq_trans (eq_sym Hi)).
Qed.

(** The run of [winner] for the administrator, by cases. *)
Lemma winner_events `{U : Unicode} ADMIN_ID user tid mention rest f :
  user_id user = ADMIN_ID →
  let s := loaded f in
  winner ADMIN_ID user (tid :: mention :: rest) f =
    match dict_get tid (tables s) with
    | None => ([EReply TableNotFound], Ok tt)
    | Some (ti, t) =>
        if bool_decide (status t ≠ running) then ([EReply TableNotRunning], Ok tt)
        else
          match find_winner s t mention with
          | None => ([EReply WinnerNotInTable], Ok tt)
          | Some w =>
              match players s !! w with
              | None => ([], Raise KeyError)
              | Some p =>
                  let t' := set_winner_id (Some w) (set_status finished t) in
                  let p' := set_wins (λ n, n + 1) p in
                  ([ESave (accrue (set_players (insert w p') (on_table ti (λ _, t') s))
                             (referred_by p));
                    EReply (WinnerDeclared (table_id t) (winner_name p'))], Ok tt)
              end
          end
    end.
Proof.
  intros Hadmin s. unfold winner.
  rewrite bool_decide_eq_false_2 by naive_solver.
  rewrite load_state_eq, bind_ok, prepend_nil. fold s.
  destruct (dict_get tid (tables s)) as [[ti t]|]; [|done].
  case_bool_decide; [done|].
  destruct (find_winner s t mention) as [w|]; [|done].
  cbn [players on_table set_tables].
  by destruct (players s !! w).
Qed.

Lemma winner_not_admin `{U : Unicode} ADMIN_ID user args f :
  user_id user ≠ ADMIN_ID → winner ADMIN_ID user args f = ([], Ok tt).
Proof. intros H. unfold winner. by rewrite bool_decide_eq_true_2. Qed.

Lemma winner_usage `{U : Unicode} ADMIN_ID user args f :
  user_id user = ADMIN_ID → (length args < 2)%nat →
  winner ADMIN_ID user args f = ([EReply Usage], Ok tt).
Proof.
  intros H Hlen. unfold winner. rewrite bool_decide_eq_false_2 by naive_solver.
  destruct args as [|? [|??]]; simpl in *; done || lia.
Qed.

Lemma winner_preserves `{U : Unicode} ADMIN_ID user args f s' :
  s' ∈ saves (winner ADMIN_ID user args f).1 → preserves (loaded f) s'.
Proof.
  destruct (decide (user_id user = ADMIN_ID)) as [Hadmin|Hadmin];
    [|rewrite winner_not_admin by done; by intros ?%elem_of_nil].
  destruct args as [|tid [|mention rest]];
    [rewrite winner_usage by (done || simpl; lia); by intros ?%elem_of_nil..|].
  rewrite winner_events by done.
  destruct (dict_get tid _) as [[ti t]|] eqn:Hget; [|by intros ?%elem_of_nil].
  case_bool_decide as Hrun; [by intros ?%elem_of_nil|].
  destruct (find_winner _ t mention) as [w|]; [|by intros ?%elem_of_nil].
  destruct (players (loaded f) !! w) as [p|] eqn:Hp; [|by intros ?%elem_of_nil].
  simpl. intros ->%list_elem_of_singleton.
  apply dict_get_Some in Hget.
  apply preserves_same_refs.
  - intros Hok.
    assert (tables_ok (on_table ti (λ _, set_winner_id (Some w) (set_status finished t))
                         (loaded f))) as Hok'.
    { apply tables_ok_on_table; [done|].
      destruct (tables_ok_lookup _ _ _ _ Hok Hget) as (Hnd & Hle & Hfull).
      split_and!; simpl; [done|done|]. intros _. apply Hfull.
      destruct (status t); naive_solver. }
    destruct (accrue_cases
                (set_players (insert w (set_wins (λ n, n + 1) p))
                   (on_table ti (λ _, set_winner_id (Some w) (set_status finished t))
                      (loaded f))) (referred_by p))
      as [[-> _]|(x & pr & _ & _ & _ & ->)]; done.
  - intros He.
    destruct (accrue_cases
                (set_players (insert w (set_wins (λ n, n + 1) p))
                   (on_table ti (λ _, set_winner_id (Some w) (set_status finished t))
                      (loaded f))) (referred_by p))
      as [[-> _]|(x & pr & _ & Hx & _ & ->)]; simpl; [done|].
    by rewrite lookup_insert_ne.
  - intros k Hk.
    destruct (accrue_cases
                (set_players (insert w (set_wins (λ n, n + 1) p))
                   (on_table ti (λ _, set_winner_id (Some w) (set_status finished t))
                      (loaded f))) (referred_by p))
      as [[-> _]|(x & pr & _ & Hx & _ & ->)]; simpl; [done|].
    apply lookup_insert_is_Some'. by right.
  - intros k.
    assert (players (accrue
                (set_players (insert w (set_wins (λ n, n + 1) p))
                   (on_table ti (λ _, set_winner_id (Some w) (set_status finished t))
                      (loaded f))) (referred_by p))
            = <[w := set_wins (λ n, n + 1) p]> (players (loaded f))) as ->.
    { destruct (accrue_cases
                (set_players (insert w (set_wins (λ n, n + 1) p))
                   (on_table ti (λ _, set_winner_id (Some w) (set_status finished t))
                      (loaded f))) (referred_by p))
        as [[-> _]|(x & pr & _ & Hx & _ & ->)]; done. }
    destruct (decide (k = w)) as [->|].
    + by rewrite lookup_insert_eq, Hp.
    + by rewrite lookup_insert_ne.
Qed.

(** ** Read-only commands *)

Lemma status_cmd_events user f :
  ∃ p, status_cmd user f
       = ([EReply (Stats p (promoters (loaded f) !! uid_of user))], Ok tt).
Proof.
  unfold status_cmd. rewrite load_state_eq, bind_ok, prepend_nil.
  rewrite get_or_create_player_promoters.
  unfold get_or_create_player. fold (uid_of user).
  destruct (players (loaded f) !! uid_of user) as [p|] eqn:E.
  - rewrite E. by exists p.
  - simpl. rewrite lookup_insert_eq. by eexists.
Qed.

Lemma tables_cmd_events ADMIN_ID user f :
  tables_cmd ADMIN_ID user f = ([], Ok tt)
  ∨ tables_cmd ADMIN_ID user f = ([EReply NoTables], Ok tt)
  ∨ ∃ rows, tables_cmd ADMIN_ID user f = ([EReply (TableList rows)], Ok tt).
Proof.
  unfold tables_cmd. case_bool_decide; [by left|].
  rewrite load_state_eq, bind_ok, prepend_nil.
  destruct (tables (loaded f)); [by right; left|]. right; right. by eexists.
Qed.

Lemma promostats_events ADMIN_ID user f :
  promostats ADMIN_ID user f = ([], Ok tt)
  ∨ promostats ADMIN_ID user f = ([EReply NoPromoters], Ok tt)
  ∨ ∃ rows, promostats ADMIN_ID user f = ([EReply (PromoterList rows)], Ok tt).
Proof.
  unfold promostats. case_bool_decide; [by left|].
  rewrite load_state_eq, bind_ok, prepend_nil.
  case_bool_decide; [by right; left|]. right; right. by eexists.
Qed.

(** ** Every save of every command maintains the invariants *)

Lemma handle_preserves `{U : Unicode} ADMIN_ID r f s' :
  s' ∈ saves (handle ADMIN_ID r f).1 → preserves (loaded f) s'.
Proof.
  destruct r as [user args| |user|user|chat_type user|user|user args|user]; simpl.
  - apply start_preserves.
  - by intros ?%elem_of_nil.
  - apply promo_preserves.
  - destruct (status_cmd_events user f) as [p ->]. by intros ?%elem_of_nil.
  - apply join_preserves.
  - destruct (tables_cmd_events ADMIN_ID user f) as [->|[->|[rows ->]]];
      by intros ?%elem_of_nil.
  - apply winner_preserves.
  - destruct (promostats_events ADMIN_ID user f) as [->|[->|[rows ->]]];
      by intros ?%elem_of_nil.
Qed.

Lemma after_preserves `{U : Unicode} ADMIN_ID r n f :
  preserves (loaded f) (loaded (after ADMIN_ID r n f)).
Proof.
  unfold after.
  destruct (commit_take n (handle ADMIN_ID r f).1 f) as [->|(s & Hs & ->)].
  - apply preserves_refl.
  - rewrite loaded_json. by eapply handle_preserves.
Qed.

Lemma run_all_preserves `{U : Unicode} ADMIN_ID rs f :
  preserves (loaded f) (loaded (run_all ADMIN_ID rs f)).
Proof.
  revert f. induction rs as [|[r n] rs IH]; intros f; simpl.
  - apply preserves_refl.
  - eapply preserves_trans; [apply after_preserves|apply IH].
Qed.

Lemma run_all_reachable `{U : Unicode} ADMIN_ID rs f :
  reachable ADMIN_ID f → reachable ADMIN_ID (run_all ADMIN_ID rs f).
Proof.
  revert f. induction rs as [|[r n] rs IH]; intros f Hf; simpl; [done|].
  apply IH. by constructor.
Qed.

Lemma reachable_inv `{U : Unicode} ADMIN_ID f :
  reachable ADMIN_ID f → tables_ok (loaded f) ∧ refs_ok (loaded f).
Proof.
  induction 1 as [f Hf|r n f _ [IHt IHr]].
  - rewrite Hf. split; [by constructor|]. split; [done|].
    intros k p r Hk. simpl in Hk. by rewrite lookup_empty in Hk.
  - destruct (after_preserves ADMIN_ID r n f) as (Ht & Hr & _). auto.
Qed.

(** ** Table composition *)

(** C4: in every state file the bot can produce from the empty aggregate, by
    any sequence of commands (enrollments among them, runs cut short by a
    failing reply included), each table holds at most [TABLE_SIZE] players and
    no player twice. *)
Theorem table_capacity_and_uniqueness `{U : Unicode}
    (ADMIN_ID : Z) (f : StateFile) (k : string) (t : Table) :
  reachable ADMIN_ID f →
  (k, t) ∈ tables (loaded f) →
  Z.of_nat (length (table_players t)) ≤ TABLE_SIZE ∧ NoDup (table_players t).
Proof.
  intros [Hok _]%reachable_inv Hin.
  unfold tables_ok in Hok. rewrite Forall_forall in Hok.
  by destruct (Hok _ Hin) as (? & ? & _).
Qed.

Lemma six_joined_reachable : reachable 99 six_joined.
Proof.
  unfold six_joined, table_full, four_seated, referred_file.
  do 2 apply reach_after. apply run_all_reachable, reach_after.
  by apply reach_empty.
Qed.

Lemma table_capacity_and_uniqueness_witness :
  ("1", table_one running None) ∈ tables (loaded six_joined)
  ∧ Z.of_nat (length (table_players (table_one running None))) ≤ TABLE_SIZE
  ∧ NoDup (table_players (table_one running None)).
Proof.
  assert (("1", table_one running None) ∈ tables (loaded six_joined)) as Hin.
  { assert (tables (loaded six_joined)
            = [("1", table_one running None);
               ("2", mkTable 2 waiting 5 ["6"] None ∅)]) as ->
      by (vm_compute; reflexivity).
    apply list_elem_of_here. }
  split; [exact Hin|].
  exact (table_capacity_and_uniqueness 99 six_joined "1" (table_one running None)
           six_joined_reachable Hin).
Defined.

(** ** Referrals are write-once *)

(** C6: once a player's [referred_by] is set, it has the same value after any
    sequence of commands, whoever issues them, with whatever arguments, and
    wherever a run is cut short. *)
Theorem referred_by_write_once `{U : Unicode}
    (ADMIN_ID : Z) (rs : list (Request * nat)) (f : StateFile) (k r : string) :
  player_referred_by (loaded f) k = Some r →
  player_referred_by (loaded (run_all ADMIN_ID rs f)) k = Some r.
Proof.
  intros Hr. destruct (run_all_preserves ADMIN_ID rs f) as (_ & _ & H). auto.
Qed.

Lemma referred_by_write_once_witness :
  player_referred_by (loaded referred_file) "1" = Some "2"
  ∧ player_referred_by
      (loaded (run_all 99
                 [(Start alice ["promo_3"], 9%nat); (Join "group" alice, 9%nat);
                  (Start alice ["promo_2"], 9%nat); (Promo alice, 9%nat)]
                 referred_file)) "1" = Some "2".
Proof.
  split; [reflexivity|].
  apply (referred_by_write_once 99 _ referred_file "1" "2"). reflexivity.
Defined.

(** ** Declaring a winner *)

Lemma table_full_reachable : reachable 99 table_full.
Proof.
  unfold table_full, four_seated, referred_file.
  apply reach_after, run_all_reachable, reach_after. by apply reach_empty.
Qed.



(** ** Typed failures *)

Lemma start_shape `{U : Unicode} user args f :
  (∃ e, start user args f = ([], Raise e))
  ∨ ∃ s', start user args f = ([ESave s'; EReply Welcome], Ok tt).
Proof.
  unfold start. rewrite load_state_eq, bind_ok, prepend_nil.
  set (s0 := get_or_create_player (loaded f) user).
  assert (∀ m : M State, m.1 = [] →
            (∃ e, m ≫= (λ state, save_state state;; reply_text Welcome) = ([], Raise e))
            ∨ ∃ s', m ≫= (λ state, save_state state;; reply_text Welcome)
                    = ([ESave s'; EReply Welcome], Ok tt)) as Hm.
  { intros [evs [s'|e]] [= ->]; [right; by exists s'|left; by exists e]. }
  apply Hm. destruct args as [|arg0 rest]; [done|].
  destruct (_ && _); [apply link_referral_events|done].
Qed.

Ltac inv_elem H :=
  repeat (apply elem_of_cons in H as [H|H]);
  try (by apply elem_of_nil in H); simplify_eq.

(** C5: a command that answers with one of the typed failures (already in the
    table, table not found, table not running, winner not in the table) does
    nothing else: its run is that single reply, it saves nothing, and the state
    file afterwards is the state file before, wherever the run stops. *)
Theorem typed_failures_commit_nothing `{U : Unicode}
    (ADMIN_ID : Z) (r : Request) (f : StateFile) (fail : Reply) :
  fail ∈ [AlreadyInTable; TableNotFound; TableNotRunning; WinnerNotInTable] →
  EReply fail ∈ (handle ADMIN_ID r f).1 →
  handle ADMIN_ID r f = ([EReply fail], Ok tt)
  ∧ saves (handle ADMIN_ID r f).1 = []
  ∧ ∀ n, after ADMIN_ID r n f = f.
Proof.
  intros Hfail Hin.
  assert (handle ADMIN_ID r f = ([EReply fail], Ok tt)) as Heq.
  { destruct r as [user args| |user|user|chat_type user|user|user args|user];
      simpl in *.
    - destruct (start_shape user args f) as [[e He]|[s' He]];
        rewrite He in Hin; simpl in Hin; inv_elem Hin; inv_elem Hfail.
    - inv_elem Hin; inv_elem Hfail.
    - rewrite promo_events in Hin. simpl in Hin. inv_elem Hin; inv_elem Hfail.
    - destruct (status_cmd_events user f) as [p He]. rewrite He in Hin.
      simpl in Hin. inv_elem Hin; inv_elem Hfail.
    - destruct (decide (chat_type ∈ ["group"; "supergroup"])) as [Hchat|Hchat].
      + destruct (open_table (get_or_create_player (loaded f) user))
          as [s1 [ti t]] eqn:Hopen.
        rewrite (join_events _ _ _ _ _ _ Hchat Hopen) in *.
        repeat case_bool_decide; simpl in Hin; inv_elem Hin; inv_elem Hfail; done.
      + rewrite join_outside_group in * by done. simpl in Hin.
        inv_elem Hin; inv_elem Hfail.
    - destruct (tables_cmd_events ADMIN_ID user f) as [He|[He|[rows He]]];
        rewrite He in Hin; simpl in Hin; inv_elem Hin; inv_elem Hfail.
    - destruct (decide (user_id user = ADMIN_ID)) as [Hadmin|Hadmin].
      + destruct args as [|tid [|mention rest]].
        * rewrite winner_usage in * by (done || simpl; lia). simpl in Hin.
          inv_elem Hin; inv_elem Hfail.
        * rewrite winner_usage in * by (done || simpl; lia). simpl in Hin.
          inv_elem Hin; inv_elem Hfail.
        * rewrite winner_events in * by done. cbv zeta in *.
          repeat (case_match || case_bool_decide); simpl in Hin;
            inv_elem Hin; inv_elem Hfail; done.
      + rewrite winner_not_admin in * by done. simpl in Hin. inv_elem Hin.
    - destruct (promostats_events ADMIN_ID user f) as [He|[He|[rows He]]];
        rewrite He in Hin; simpl in Hin; inv_elem Hin; inv_elem Hfail. }
  split; [done|]. split; [by rewrite Heq|].
  intros n. unfold after. rewrite Heq. by destruct n as [|[|n]].
Qed.

Lemma typed_failures_commit_nothing_witness :
  handle 99 (Join "group" alice) four_seated = ([EReply AlreadyInTable], Ok tt)
  ∧ after 99 (Join "group" alice) 9 four_seated = four_seated.
Proof.
  destruct (typed_failures_commit_nothing 99 (Join "group" alice) four_seated
              AlreadyInTable) as (Heq & _ & Hsame).
  - apply list_elem_of_here.
  - assert ((handle 99 (Join "group" alice) four_seated).1 = [EReply AlreadyInTable])
      as -> by (vm_compute; reflexivity).
    apply list_elem_of_here.
  - split; [exact Heq|apply Hsame].
Defined.

(** ** When a table starts running *)

(** Outside a run of [join], a table that is not waiting is full: no table is
    running or finished with a seat to spare. *)
Lemma running_only_when_full `{U : Unicode} ADMIN_ID f k t :
  reachable ADMIN_ID f → (k, t) ∈ tables (loaded f) → status t ≠ waiting →
  Z.of_nat (length (table_players t)) = TABLE_SIZE.
Proof.
  intros [Hok _]%reachable_inv Hin.
  unfold tables_ok in Hok. rewrite Forall_forall in Hok.
  by destruct (Hok _ Hin) as (_ & _ & ?).
Qed.

(** The join that takes the last seat saves twice: first the full table, still
    [waiting], then, after the "joined" reply, the same table [running]. *)
Lemma join_last_seat chat_type user f s1 ti t :
  chat_type ∈ ["group"; "supergroup"] →
  open_table (get_or_create_player (loaded f) user) = (s1, (ti, t)) →
  uid_of user ∉ table_players t →
  Z.of_nat (length (table_players t)) = TABLE_SIZE - 1 →
  ∃ sa sb joined filled ka kb ta tb,
    join chat_type user f = ([ESave sa; EReply joined; ESave sb; ESend filled], Ok tt)
    ∧ tables sa !! ti = Some (ka, ta) ∧ status ta = waiting
    ∧ Z.of_nat (length (table_players ta)) = TABLE_SIZE
    ∧ tables sb !! ti = Some (kb, tb) ∧ status tb = running
    ∧ table_players tb = table_players ta.
Proof.
  intros Hchat Hopen Hnew Hlen.
  destruct (open_table_spec _ _ _ _ Hopen) as (_ & _ & [k Hk] & Hw & _ & _).
  rewrite (join_events _ _ _ _ _ _ Hchat Hopen).
  rewrite bool_decide_eq_false_2 by done.
  rewrite bool_decide_eq_true_2 by (simpl; rewrite length_app; simpl; lia).
  do 4 eexists. exists k, k. do 2 eexists. split; [reflexivity|].
  split_and!.
  - simpl. rewrite list_lookup_alter_eq, Hk. reflexivity.
  - done.
  - simpl. rewrite length_app. simpl. lia.
  - simpl. rewrite !list_lookup_alter_eq, Hk. reflexivity.
  - done.
  - done.
Qed.

(** C2 on the code: Erin takes the fifth seat of table 1.  The run saves the
    full table as [waiting], replies, and only then saves it as [running].
    When the reply raises, the file keeps the first save: a full table that is
    still [waiting], which no later [join] picks and for which [winner] answers
    "not running". *)
Theorem fifth_join_saves_twice :
  (∃ joined filled,
     join "group" erin four_seated
     = ([ESave (loaded stuck_file); EReply joined;
         ESave (loaded table_full); ESend filled], Ok tt))
  ∧ tables (loaded four_seated)
    = [("1", mkTable 1 waiting 5 ["1"; "2"; "3"; "4"] None ∅)]
  ∧ tables (loaded stuck_file) = [("1", table_one waiting None)]
  ∧ tables (loaded table_full) = [("1", table_one running None)]
  ∧ find_waiting_table (loaded stuck_file) = None
  ∧ winner 99 admin ["1"; "@alice"] stuck_file = ([EReply TableNotRunning], Ok tt)
  ∧ tables (loaded (after 99 (Join "group" frank) 9 stuck_file))
    = [("1", table_one waiting None); ("2", mkTable 2 waiting 5 ["6"] None ∅)].
Proof.
  split_and!; try (vm_compute; reflexivity).
  do 2 eexists. vm_compute. reflexivity.
Qed.

(** * Further properties of the code *)

(** ** [str] and [int] *)

Lemma digit_of_pretty_N_char d :
  (d < 10)%N →
  digit_of (pretty_N_char d) = Some (Z.of_N d) ∧ pretty_N_char d ≠ "_"%char.
Proof.
  intros Hd.
  assert (d = 0 ∨ d = 1 ∨ d = 2 ∨ d = 3 ∨ d = 4 ∨ d = 5 ∨ d = 6 ∨ d = 7
          ∨ d = 8 ∨ d = 9)%N as Hcases by lia.
  destruct Hcases as [->|[->|[->|[->|[->|[->|[->|[->|[->| ->]]]]]]]]]; by split.
Qed.

Lemma int_digits_digit acc b d s :
  (d < 10)%N →
  int_digits acc b (String (pretty_N_char d) s) = int_digits (10 * acc + Z.of_N d) true s.
Proof.
  intros [Hd Hu]%digit_of_pretty_N_char. simpl.
  rewrite decide_False by done. by rewrite Hd.
Qed.

(** Reading back the digits that [pretty_N_go] writes in front of [s]. *)
Lemma int_digits_pretty_N_go x :
  ∃ m, ∀ acc b s,
    int_digits acc b (pretty_N_go x s)
    = int_digits (acc * m + Z.of_N x) (b || bool_decide (0 < x)%N) s.
Proof.
  induction (N.lt_wf_0 x) as [x _ IH].
  destruct (decide (x = 0%N)) as [->|Hx].
  { exists 1. intros acc b s. rewrite pretty_N_go_0, orb_false_r. f_equal. lia. }
  destruct (IH (x `div` 10)%N) as [m Hm]; [apply N.div_lt; lia|].
  exists (10 * m). intros acc b s.
  rewrite pretty_N_go_step by lia. rewrite Hm.
  rewrite int_digits_digit by (apply N.mod_lt; lia).
  rewrite (bool_decide_eq_true_2 (0 < x)%N) by lia. rewrite orb_true_r.
  f_equal. pose proof (N.div_mod x 10). rewrite N2Z.inj_div, N2Z.inj_mod.
  pose proof (Z.div_mod (Z.of_N x) 10). simpl Z.of_N. lia.
Qed.

Lemma pretty_N_go_starts_digit x s :
  (∃ c r, s = String c r ∧ is_Some (digit_of c)) →
  ∃ c r, pretty_N_go x s = String c r ∧ is_Some (digit_of c).
Proof.
  revert s. induction (N.lt_wf_0 x) as [x _ IH]. intros s Hs.
  destruct (decide (x = 0%N)) as [->|Hx]; [by rewrite pretty_N_go_0|].
  rewrite pretty_N_go_step by lia. apply IH; [apply N.div_lt; lia|].
  do 2 eexists. split; [done|].
  by destruct (digit_of_pretty_N_char (x `mod` 10)) as [-> _];
    [apply N.mod_lt; lia|].
Qed.

Lemma pretty_N_char_plain d :
  (d < 10)%N →
  (nat_of_ascii (pretty_N_char d) <? 128)%nat = true
  ∧ is_space (pretty_N_char d) = false
  ∧ pretty_N_char d ≠ "-"%char ∧ pretty_N_char d ≠ "+"%char.
Proof.
  intros Hd.
  assert (d = 0 ∨ d = 1 ∨ d = 2 ∨ d = 3 ∨ d = 4 ∨ d = 5 ∨ d = 6 ∨ d = 7
          ∨ d = 8 ∨ d = 9)%N as Hcases by lia.
  destruct Hcases as [->|[->|[->|[->|[->|[->|[->|[->|[->| ->]]]]]]]]];
    by split_and!.
Qed.

Lemma is_ascii_pretty_N_go x s :
  is_ascii s = true → is_ascii (pretty_N_go x s) = true.
Proof.
  revert s. induction (N.lt_wf_0 x) as [x _ IH]. intros s Hs.
  destruct (decide (x = 0%N)) as [->|Hx]; [by rewrite pretty_N_go_0|].
  rewrite pretty_N_go_step by lia. apply IH; [apply N.div_lt; lia|].
  simpl. rewrite Hs, andb_true_r.
  by destruct (pretty_N_char_plain (x `mod` 10)) as [-> _]; [apply N.mod_lt; lia|].
Qed.

Lemma is_ascii_str n : is_ascii (str n) = true.
Proof.
  unfold str, pretty, pretty_Z. destruct n as [|p|p]; [done| |].
  - unfold pretty at 1, pretty_positive, pretty, pretty_N.
    rewrite decide_False by done. by apply is_ascii_pretty_N_go.
  - change ("-" +:+ pretty p) with (String "-" (pretty (N.pos p))).
    unfold pretty, pretty_N. rewrite decide_False by done.
    simpl. by apply is_ascii_pretty_N_go.
Qed.

(** On ASCII text [int] is the ASCII reading, whatever the character
    database. *)
Lemma py_int_ascii `{U : Unicode} s :
  is_ascii s = true →
  py_int s = match int_ascii s with Some n => Ok n | None => Raise ValueError end.
Proof. intros Hs. unfold py_int. by rewrite Hs. Qed.

Lemma int_digits_pos p : int_digits 0 false (pretty (N.pos p)) = Some (Z.pos p).
Proof.
  unfold pretty, pretty_N. rewrite decide_False by done.
  destruct (int_digits_pretty_N_go (N.pos p)) as [m Hm]. rewrite Hm.
  by rewrite (bool_decide_eq_true_2 (0 < N.pos p)%N) by lia.
Qed.

Lemma int_ascii_str n : int_ascii (str n) = Some n.
Proof.
  unfold str, pretty, pretty_Z. destruct n as [|p|p]; [done| |].
  - unfold pretty at 1, pretty_positive.
    pose proof (int_digits_pos p) as Hp. revert Hp.
    unfold pretty, pretty_N. rewrite decide_False by done.
    rewrite pretty_N_go_step by lia.
    destruct (pretty_N_go_starts_digit (N.pos p `div` 10)
                (String (pretty_N_char (N.pos p `mod` 10)) ""))
      as (c & r & -> & Hc).
    { do 2 eexists. split; [done|].
      by destruct (digit_of_pretty_N_char (N.pos p `mod` 10)) as [-> _];
        [apply N.mod_lt; lia|]. }
    intros <-. unfold int_ascii.
    destruct c as [[] [] [] [] [] [] [] []]; try done; by destruct Hc.
  - change ("-" +:+ pretty p) with (String "-" (pretty (N.pos p))).
    change (int_ascii (String "-" (pretty (N.pos p))))
      with (Z.opp <$> int_digits 0 false (pretty (N.pos p))).
    by rewrite int_digits_pos.
Qed.

Lemma py_int_of_str `{U : Unicode} n : py_int (str n) = Ok n.
Proof. by rewrite py_int_ascii, int_ascii_str by apply is_ascii_str. Qed.

(** X1: the promo code that [promo] mints for a user passes the checks of
    [start]: it has the [promo_] prefix, splitting it yields the user's key
    [str(user.id)], and [int] reads that key back as the user's id.  Hence the
    record that [start] registers from this code for a not yet known promoter
    is the record [promo] would create, only without the names. *)
Theorem promo_code_round_trip `{U : Unicode} (user : User) :
  let code := promo_code (new_promoter user) in
  startswith "promo_" code = true
  ∧ (split1 "_" code).2 = Some (uid_of user)
  ∧ py_int (uid_of user) = Ok (user_id user)
  ∧ promoter_shell (uid_of user) (user_id user)
    = set_names None None (new_promoter user).
Proof.
  split_and!; try done. apply py_int_of_str.
Qed.

(** ** Selectors are case-insensitive *)

Lemma in_letters a b :
  (a, b) ∈ letters →
  lower_ascii a = b ∧ lower_ascii b = b
  ∧ (65 <= nat_of_ascii a <= 90)%nat ∧ nat_of_ascii b = (nat_of_ascii a + 32)%nat.
Proof.
  intros Hin. vm_compute in Hin.
  repeat (apply elem_of_cons in Hin as [[= -> ->]|Hin];
          [vm_compute; split_and!; (reflexivity || lia)|]).
  by apply elem_of_nil in Hin.
Qed.

Lemma letters_upper a :
  (65 <= nat_of_ascii a <= 90)%nat → (a, ascii_of_nat (nat_of_ascii a + 32)) ∈ letters.
Proof.
  intros Ha. rewrite <- (ascii_nat_embedding a) at 1.
  assert (∃ k, nat_of_ascii a = (65 + k)%nat ∧ (k < 26)%nat) as (k & -> & Hk)
    by (exists (nat_of_ascii a - 65)%nat; lia).
  do 26 (destruct k as [|k]; [vm_compute; by repeat constructor|]). lia.
Qed.

Lemma same_letter_lower a b :
  same_letter a b = true ↔ lower_ascii a = lower_ascii b.
Proof.
  unfold same_letter. rewrite bool_decide_eq_true. split.
  - intros [->|[Hin|Hin]]; [done| |];
      apply in_letters in Hin as (H1 & H2 & _); congruence.
  - unfold lower_ascii.
    pose proof (nat_ascii_bounded a) as Hba. pose proof (nat_ascii_bounded b) as Hbb.
    destruct ((65 <=? nat_of_ascii a)%nat && (nat_of_ascii a <=? 90)%nat) eqn:Ea;
      destruct ((65 <=? nat_of_ascii b)%nat && (nat_of_ascii b <=? 90)%nat) eqn:Eb;
      intros Heq.
    + apply andb_true_iff in Ea as [?%Nat.leb_le ?%Nat.leb_le].
      apply andb_true_iff in Eb as [?%Nat.leb_le ?%Nat.leb_le].
      left. apply (f_equal nat_of_ascii) in Heq.
      rewrite !nat_ascii_embedding in Heq by lia.
      rewrite <- (ascii_nat_embedding a), <- (ascii_nat_embedding b).
      f_equal. lia.
    + right; left. rewrite <- Heq. apply letters_upper.
      apply andb_true_iff in Ea as [?%Nat.leb_le ?%Nat.leb_le]. lia.
    + right; right. rewrite Heq. apply letters_upper.
      apply andb_true_iff in Eb as [?%Nat.leb_le ?%Nat.leb_le]. lia.
    + by left.
Qed.

Lemma equal_ignoring_case_lower s t :
  equal_ignoring_case s t = true ↔ lower_ascii_text s = lower_ascii_text t.
Proof.
  revert t. induction s as [|a s IH]; intros [|b t]; simpl; try done.
  rewrite andb_true_iff, same_letter_lower, IH. split; [by intros [-> ->]|].
  by intros [= -> ->].
Qed.

(** On ASCII text the comparison of [winner] is equality up to letter case,
    whatever the character database. *)
Lemma lower_ascii_eq `{U : Unicode} s t :
  is_ascii s = true → is_ascii t = true →
  lower s = lower t ↔ equal_ignoring_case s t = true.
Proof.
  intros Hs Ht. unfold lower. rewrite Hs, Ht. by rewrite equal_ignoring_case_lower.
Qed.

Lemma equal_ignoring_case_ascii s t :
  equal_ignoring_case s t = true → is_ascii s = true → is_ascii t = true.
Proof.
  revert t. induction s as [|a s IH]; intros [|b t]; simpl; try done.
  intros [Hab Hst]%andb_true_iff [Ha Hs]%andb_true_iff.
  rewrite (IH t Hst Hs), andb_true_r.
  apply bool_decide_eq_true_1 in Hab as [->|[Hin|Hin]]; [done| |];
    apply in_letters in Hin as (_ & _ & Hup & Hlow);
    apply Nat.ltb_lt; apply Nat.ltb_lt in Ha; lia.
Qed.

Lemma lower_at `{U : Unicode} u :
  is_ascii u = true → "@" +:+ lower u = lower ("@" +:+ u).
Proof.
  intros Hu. change ("@" +:+ u) with (String "@" u).
  unfold lower. simpl. by rewrite Hu.
Qed.

(** With ASCII text on both sides, the test of the loop in [winner] holds
    exactly for the players the selector names. *)
Lemma matches_named `{U : Unicode} s mention pid :
  is_ascii mention = true →
  (∀ p u, players s !! pid = Some p → player_username p = Some u → is_ascii u = true) →
  matches s mention pid = true ↔ named_by s mention pid.
Proof.
  intros Hm Hu. unfold matches, named_by.
  destruct (players s !! pid) as [p|] eqn:Hp; [|split; [done|by intros (?&?&?&_)]].
  destruct (player_username p) as [[|c u]|] eqn:Hname; cbn [truthy andb default].
  - split; [done|]. intros (p0 & u0 & [= <-] & Hu0 & Hne & _). congruence.
  - specialize (Hu p _ eq_refl Hname).
    rewrite bool_decide_eq_true, lower_at by done.
    rewrite lower_ascii_eq by done.
    split; [intros Heq; by exists p, (String c u)|].
    intros (p0 & u0 & [= <-] & Hu0 & _ & Heq).
    rewrite Hname in Hu0. injection Hu0 as <-. exact Heq.
  - split; [done|]. intros (p0 & u0 & [= <-] & Hu0 & _). congruence.
Qed.

(** X2: [winner] reads an ASCII selector up to the case of its letters, and
    ignores every argument after the second: two selectors that differ only
    in letter case give the same run. *)
Theorem winner_selector_case_insensitive `{U : Unicode}
    (ADMIN_ID : Z) (user : User) (tid m m' : string) (rest rest' : list string)
    (f : StateFile) :
  is_ascii m = true →
  equal_ignoring_case m m' = true →
  winner ADMIN_ID user (tid :: m :: rest) f = winner ADMIN_ID user (tid :: m' :: rest') f.
Proof.
  intros Hm Heq.
  assert (lower m = lower m') as Hlow.
  { apply lower_ascii_eq; [done| |done]. by eapply equal_ignoring_case_ascii. }
  unfold winner. case_bool_decide; [done|].
  rewrite load_state_eq, !bind_ok, !prepend_nil.
  destruct (dict_get tid _) as [[ti t]|]; [|done].
  case_bool_decide; [done|].
  assert (find_winner (loaded f) t m = find_winner (loaded f) t m') as ->; [|done].
  unfold find_winner. f_equal. apply list_find_ext. intros pid.
  unfold matches. by rewrite Hlow.
Qed.

Lemma winner_selector_case_insensitive_witness :
  winner 99 admin ["1"; "@ALICE"; "please"] table_full
  = winner 99 admin ["1"; "@Alice"] table_full.
Proof.
  apply (winner_selector_case_insensitive 99 admin "1" "@ALICE" "@Alice"
           ["please"] [] table_full).
  - reflexivity.
  - vm_compute. reflexivity.
Defined.

(** ** Who can be declared winner *)

Lemma winner_save_table `{U : Unicode} s ti tid t t' w p r :
  tables s !! ti = Some (tid, t) →
  tables (accrue (set_players (insert w p) (on_table ti (λ _, t') s)) r) !! ti
  = Some (tid, t').
Proof.
  intros Hi.
  assert (tables (accrue (set_players (insert w p) (on_table ti (λ _, t') s)) r)
          = <[ti := (tid, t')]> (tables s)) as ->.
  { destruct (accrue_cases (set_players (insert w p) (on_table ti (λ _, t') s)) r)
      as [[-> _]|(? & ? & _ & _ & _ & ->)]; simpl;
      by rewrite <- (on_table_tables s ti tid t t'). }
  apply list_lookup_insert_eq. by eapply lookup_lt_Some.
Qed.

(** The test of the loop in [winner], spelled out. *)
Lemma matches_spec `{U : Unicode} s mention pid :
  matches s mention pid = true ↔
  ∃ p u, players s !! pid = Some p ∧ player_username p = Some u ∧ u ≠ ""
         ∧ "@" +:+ lower u = lower mention.
Proof.
  split; [apply matches_record|].
  intros (p & u & Hp & Hu & Hne & Heq). unfold matches. rewrite Hp, Hu.
  destruct u as [|c u]; [done|]. cbn [truthy andb default].
  by apply bool_decide_eq_true_2.
Qed.

(** C10: the loop of [winner] only ever looks at stored usernames.  Say that
    a selector picks a player when the player's record has a username that
    is not empty and that, in lower case with [@] in front, is the selector
    in lower case.  For a running table: (1) a player whose record has no
    username, or an empty one, is picked by no selector, is never resolved,
    and no save of the run records that player as the winner; (2) a selector
    that picks no enrolled player, as any selector meant for such a player,
    is answered with "winner not found" and the file is unchanged; (3) the
    player declared, in the one save of the run, is the first in join order
    that the selector picks; (4) for an ASCII selector and an ASCII username
    (Telegram user names are ASCII), to be picked is to have the selector as
    username, [@] in front, up to letter case. *)
Theorem winner_matches_usernames_only `{U : Unicode}
    (ADMIN_ID : Z) (user : User) (tid : string) (rest : list string)
    (f : StateFile) (ti : nat) (t : Table) :
  let picks (mention pid : string) : Prop :=
    ∃ p u, players (loaded f) !! pid = Some p ∧ player_username p = Some u
           ∧ u ≠ "" ∧ "@" +:+ lower u = lower mention in
  user_id user = ADMIN_ID →
  dict_get tid (tables (loaded f)) = Some (ti, t) →
  status t = running →
  (∀ mention pid p,
     players (loaded f) !! pid = Some p →
     truthy (player_username p) = false →
     ¬ picks mention pid
     ∧ find_winner (loaded f) t mention ≠ Some pid
     ∧ ∀ s' k t',
         s' ∈ saves (winner ADMIN_ID user (tid :: mention :: rest) f).1 →
         tables s' !! ti = Some (k, t') → winner_id t' ≠ Some pid)
  ∧ (∀ mention,
       (∀ q, q ∈ table_players t → ¬ picks mention q) →
       winner ADMIN_ID user (tid :: mention :: rest) f
       = ([EReply WinnerNotInTable], Ok tt)
       ∧ ∀ n, after ADMIN_ID (Winner user (tid :: mention :: rest)) n f = f)
  ∧ (∀ mention i w,
       table_players t !! i = Some w →
       picks mention w →
       (∀ j q, (j < i)%nat → table_players t !! j = Some q → ¬ picks mention q) →
       ∃ p s',
         players (loaded f) !! w = Some p
         ∧ winner ADMIN_ID user (tid :: mention :: rest) f
           = ([ESave s';
               EReply (WinnerDeclared (table_id t)
                         (winner_name (set_wins (λ n, n + 1) p)))], Ok tt)
         ∧ tables s' !! ti
           = Some (tid, set_winner_id (Some w) (set_status finished t)))
  ∧ (∀ mention pid p u,
       is_ascii mention = true →
       players (loaded f) !! pid = Some p →
       player_username p = Some u →
       is_ascii u = true →
       picks mention pid ↔ named_by (loaded f) mention pid).
Proof.
  intros picks Hadmin Hget Hrun.
  pose proof (dict_get_Some _ _ _ _ Hget) as Hti.
  assert (∀ mention q, matches (loaded f) mention q = true ↔ picks mention q)
    as Hpicks by (intros; apply matches_spec).
  assert (∀ mention,
            winner ADMIN_ID user (tid :: mention :: rest) f
            = match find_winner (loaded f) t mention with
              | None => ([EReply WinnerNotInTable], Ok tt)
              | Some w =>
                  match players (loaded f) !! w with
                  | None => ([], Raise KeyError)
                  | Some p =>
                      ([ESave (accrue
                                 (set_players (insert w (set_wins (λ n, n + 1) p))
                                    (on_table ti
                                       (λ _, set_winner_id (Some w)
                                               (set_status finished t))
                                       (loaded f)))
                                 (referred_by p));
                        EReply (WinnerDeclared (table_id t)
                                  (winner_name (set_wins (λ n, n + 1) p)))], Ok tt)
                  end
              end) as Hrun_eq.
  { intros mention. rewrite winner_events by done. cbv zeta. rewrite Hget.
    by rewrite bool_decide_eq_false_2 by (rewrite Hrun; intros Hc; by apply Hc). }
  split_and!.
  - intros mention pid p Hp Hname.
    assert (¬ picks mention pid) as Hnot.
    { intros (p0 & u & Hp0 & Hu & Hne & _).
      rewrite Hp in Hp0. injection Hp0 as <-. rewrite Hu in Hname.
      by destruct u. }
    split; [done|].
    assert (find_winner (loaded f) t mention ≠ Some pid) as Hfind.
    { intros (i & _ & Hm & _)%find_winner_Some. by apply Hnot, Hpicks. }
    split; [done|]. intros s' k t'. rewrite Hrun_eq.
    destruct (find_winner (loaded f) t mention) as [w|] eqn:Hfw;
      [|by intros ?%elem_of_nil].
    destruct (players (loaded f) !! w) as [pw|]; [|by intros ?%elem_of_nil].
    simpl. intros ->%list_elem_of_singleton.
    rewrite (winner_save_table _ _ tid t) by done. intros [= <- <-]. simpl.
    congruence.
  - intros mention Hnobody.
    assert (winner ADMIN_ID user (tid :: mention :: rest) f
            = ([EReply WinnerNotInTable], Ok tt)) as Heq.
    { rewrite Hrun_eq.
      assert (find_winner (loaded f) t mention = None) as ->; [|done].
      apply find_winner_None. intros q Hq.
      destruct (matches (loaded f) mention q) eqn:E; [|done].
      apply Hpicks in E. by destruct (Hnobody q Hq). }
    split; [done|]. intros n. unfold after. simpl. rewrite Heq.
    by destruct n as [|[|n]].
  - intros mention i w Hi Hw Hfirst.
    assert (find_winner (loaded f) t mention = Some w) as Hfw.
    { apply find_winner_Some. exists i. split_and!; [done|by apply Hpicks|].
      intros j q Hj Hlt.
      destruct (matches (loaded f) mention q) eqn:E; [|done].
      apply Hpicks in E. by destruct (Hfirst j q Hlt Hj). }
    destruct Hw as (p & u & Hp & _).
    exists p. eexists. split; [done|].
    rewrite Hrun_eq, Hfw, Hp. split; [reflexivity|].
    by apply (winner_save_table _ _ tid t).
  - intros mention pid p u Hm Hp Hu Hau.
    rewrite <- Hpicks. apply matches_named; [done|].
    intros p0 u0 Hp0 Hu0. congruence.
Qed.

Lemma winner_matches_usernames_only_witness :
  winner 99 admin ["1"; "@carol"] table_full = ([EReply WinnerNotInTable], Ok tt)
  ∧ ∃ s',
      winner 99 admin ["1"; "@BOB"] table_full
      = ([ESave s'; EReply (WinnerDeclared 1 "Bob")], Ok tt)
      ∧ tables s' !! 0%nat = Some ("1", table_one finished (Some "2")).
Proof.
  destruct (winner_matches_usernames_only 99 admin "1" [] table_full 0
              (table_one running None)) as (_ & Hfail & Hfirst & _).
  - reflexivity.
  - vm_compute. reflexivity.
  - reflexivity.
  - split.
    + apply Hfail. intros q Hq (p & u & Hp & Hu & _ & Heq). vm_compute in Hq.
      repeat (apply elem_of_cons in Hq as [->|Hq];
              [vm_compute in Hp; injection Hp as <-; vm_compute in Hu;
               first [discriminate Hu
                     |injection Hu as <-; vm_compute in Heq; discriminate Heq]|]).
      by apply elem_of_nil in Hq.
    + destruct (Hfirst "@BOB" 1%nat "2") as (p & s' & Hp & Heq & Ht).
      * reflexivity.
      * exists (set_joined_tables (λ _, 1) (new_player bob)), "Bob".
        split_and!; [vm_compute; reflexivity|reflexivity|done|vm_compute; reflexivity].
      * intros j q Hlt Hj. destruct j as [|j]; [|lia]. injection Hj as <-.
        intros (p & u & Hp & Hu & _ & Heq).
        vm_compute in Hp. injection Hp as <-. vm_compute in Hu.
        injection Hu as <-. vm_compute in Heq. discriminate Heq.
      * vm_compute in Hp. injection Hp as <-.
        exists s'. split; [exact Heq|exact Ht].
Defined.

(** ** Referral linking, step by step *)

Lemma start_promo_token `{U : Unicode} user pid rest f :
  player_referred_by (loaded f) (uid_of user) = None →
  start user (("promo_" +:+ pid) :: rest) f
  = link_referral (get_or_create_player (loaded f) user) user ("promo_" +:+ pid)
    ≫= λ state, save_state state;; reply_text Welcome.
Proof.
  intros Hnone. unfold start. rewrite load_state_eq, bind_ok, prepend_nil.
  rewrite startswith_app.
  by rewrite bool_decide_eq_true_2 by (by rewrite get_or_create_player_referred).
Qed.

Lemma get_or_create_player_lookup s user :
  players (get_or_create_player s user) !! uid_of user
  = Some (default (new_player user) (players s !! uid_of user)).
Proof.
  unfold get_or_create_player. fold (uid_of user).
  destruct (players s !! uid_of user) eqn:E; simpl; [done|].
  by rewrite lookup_insert_eq.
Qed.

Lemma get_or_create_player_lookup_ne s user k :
  k ≠ uid_of user → players (get_or_create_player s user) !! k = players s !! k.
Proof.
  intros Hk. unfold get_or_create_player. fold (uid_of user).
  destruct (players s !! uid_of user); simpl; [done|]. by rewrite lookup_insert_ne.
Qed.

(** X3: a first referral.  When the acting player has no referrer yet and the
    token names somebody else, [start] saves once; in the saved aggregate the
    player's [referred_by] is the token's promoter key, that promoter's record
    (the existing one, or a fresh record without names when there was none and
    the key reads as an integer) counts one more referred player, and no other
    player, promoter or table has changed. *)
Theorem start_links_referral `{U : Unicode}
    (user : User) (pid : string) (rest : list string) (f : StateFile)
    (pr0 : Promoter) :
  player_referred_by (loaded f) (uid_of user) = None →
  pid ≠ uid_of user →
  (promoters (loaded f) !! pid = Some pr0
   ∨ promoters (loaded f) !! pid = None
     ∧ ∃ n, py_int pid = Ok n ∧ pr0 = promoter_shell pid n) →
  ∃ s', start user (("promo_" +:+ pid) :: rest) f = ([ESave s'; EReply Welcome], Ok tt)
    ∧ player_referred_by s' (uid_of user) = Some pid
    ∧ promoters s' = <[pid := set_referred_players (λ n, n + 1) pr0]> (promoters (loaded f))
    ∧ (∀ k, k ≠ uid_of user → players s' !! k = players (loaded f) !! k)
    ∧ tables s' = tables (loaded f)
    ∧ next_table_id s' = next_table_id (loaded f).
Proof.
  intros Hnone Hne Hpr0. rewrite start_promo_token by done.
  set (s0 := get_or_create_player (loaded f) user).
  set (s' := mkState (tables s0) (next_table_id s0)
               (alter (set_referred_by (Some pid)) (uid_of user) (players s0))
               (<[pid := set_referred_players (λ n, n + 1) pr0]> (promoters s0))).
  assert (link_referral s0 user ("promo_" +:+ pid) = ([], Ok s')) as ->.
  { unfold link_referral. rewrite split1_promo. cbn [snd].
    rewrite bool_decide_eq_true_2 by done. cbn [promoters set_players].
    unfold s0 at 1. rewrite get_or_create_player_promoters.
    destruct Hpr0 as [Hp|(Hp & n & Hn & ->)]; rewrite Hp.
    - rewrite bind_mret. unfold mret, M_ret, s', set_promoters, set_players. simpl.
      do 3 f_equal. apply alter_alt_Some.
      unfold s0. by rewrite get_or_create_player_promoters.
    - unfold lift. rewrite Hn, bind_ok, prepend_nil.
      unfold mret, M_ret, s', set_promoters, set_players. simpl.
      do 3 f_equal. by rewrite alter_insert_eq. }
  exists s'. split; [done|]. split_and!.
  - unfold player_referred_by, s'. simpl. rewrite lookup_alter_eq.
    unfold s0. by rewrite get_or_create_player_lookup.
  - unfold s', s0. simpl. by rewrite get_or_create_player_promoters.
  - intros k Hk. unfold s', s0. simpl. rewrite lookup_alter_ne by done.
    by apply get_or_create_player_lookup_ne.
  - unfold s', s0. simpl. apply get_or_create_player_tables.
  - unfold s', s0, get_or_create_player. simpl. by case_match.
Qed.

Lemma start_links_referral_witness :
  ∃ s', start alice ["promo_2"] Absent = ([ESave s'; EReply Welcome], Ok tt)
        ∧ player_referred_by s' (uid_of alice) = Some "2"
        ∧ promoters s' = <[ "2" := bob_shell ]> ∅.
Proof.
  destruct (start_links_referral alice "2" [] Absent (promoter_shell "2" 2))
    as (s' & Heq & Hr & Hp & _).
  - reflexivity.
  - by vm_compute.
  - right. split; [reflexivity|]. exists 2. split; reflexivity.
  - exists s'. split; [exact Heq|]. split; [exact Hr|exact Hp].
Defined.

(** X4: a first referral whose promoter key is not known and does not read as
    an integer (for instance [promo_abc]) makes [start] raise [ValueError]
    before it saves or replies: the state file is unchanged, so not even the
    player record of a first-time user is kept. *)
Theorem start_bad_token_raises `{U : Unicode}
    (ADMIN_ID : Z) (user : User) (pid : string) (rest : list string)
    (f : StateFile) (e : PyErr) :
  player_referred_by (loaded f) (uid_of user) = None →
  pid ≠ uid_of user →
  promoters (loaded f) !! pid = None →
  py_int pid = Raise e →
  start user (("promo_" +:+ pid) :: rest) f = ([], Raise e)
  ∧ ∀ n, after ADMIN_ID (Start user (("promo_" +:+ pid) :: rest)) n f = f.
Proof.
  intros Hnone Hne Hpr He.
  assert (start user (("promo_" +:+ pid) :: rest) f = ([], Raise e)) as Heq.
  { rewrite start_promo_token by done.
    unfold link_referral. rewrite split1_promo. cbn [snd].
    rewrite bool_decide_eq_true_2 by done. cbn [promoters set_players].
    rewrite get_or_create_player_promoters, Hpr. unfold lift. by rewrite He. }
  split; [done|]. intros n. unfold after. simpl. rewrite Heq. by destruct n.
Qed.

Lemma start_bad_token_raises_witness :
  start alice ["promo_abc"] Absent = ([], Raise ValueError)
  ∧ after 99 (Start alice ["promo_abc"]) 9 Absent = Absent.
Proof.
  destruct (start_bad_token_raises 99 alice "abc" [] Absent ValueError)
    as [Heq Hsame]; try reflexivity.
  - by vm_compute.
  - split; [exact Heq|apply Hsame].
Defined.

(** ** Self-referral under another spelling *)

Lemma int_digits_after_digit p :
  int_digits 0 true (pretty (N.pos p)) = Some (Z.pos p).
Proof.
  unfold pretty, pretty_N. rewrite decide_False by done.
  destruct (int_digits_pretty_N_go (N.pos p)) as [m Hm]. by rewrite Hm.
Qed.

(** [int] reads over a leading zero. *)
Lemma py_int_padded `{U : Unicode} n :
  0 ≤ n → py_int (String "0" (str n)) = Ok n.
Proof.
  intros Hn. rewrite py_int_ascii by (simpl; apply is_ascii_str).
  change (int_ascii (String "0" (str n))) with (int_digits 0 true (str n)).
  unfold str, pretty, pretty_Z. destruct n as [|p|p]; [done| |lia].
  unfold pretty at 1, pretty_positive. by rewrite int_digits_after_digit.
Qed.

Lemma String_ne c s : String c s ≠ s.
Proof. intros Heq. apply (f_equal String.length) in Heq. simpl in Heq. lia. Qed.

(** The referral branch of [start], for a promoter other than (in spelling)
    the acting user. *)
Lemma link_referral_links `{U : Unicode} s0 user pid pr0 :
  pid ≠ uid_of user →
  (promoters s0 !! pid = Some pr0
   ∨ promoters s0 !! pid = None ∧ ∃ n, py_int pid = Ok n ∧ pr0 = promoter_shell pid n) →
  link_referral s0 user ("promo_" +:+ pid)
  = ([], Ok (mkState (tables s0) (next_table_id s0)
               (alter (set_referred_by (Some pid)) (uid_of user) (players s0))
               (<[pid := set_referred_players (λ n, n + 1) pr0]> (promoters s0)))).
Proof.
  intros Hne Hpr0. unfold link_referral. rewrite split1_promo. cbn [snd].
  rewrite bool_decide_eq_true_2 by done. cbn [promoters set_players].
  destruct Hpr0 as [Hp|(Hp & n & Hn & ->)]; rewrite Hp.
  - rewrite bind_mret. unfold mret, M_ret, set_promoters, set_players. simpl.
    do 3 f_equal. by apply alter_alt_Some.
  - unfold lift. rewrite Hn, bind_ok, prepend_nil.
    unfold mret, M_ret, set_promoters, set_players. simpl.
    do 3 f_equal. by rewrite alter_insert_eq.
Qed.

(** C7 on the code: the self-referral test compares the text of the token
    with [str(user.id)], while the promoter's id is what [int] reads from
    that text.  A user who sends the link with a zero in front of the own id
    (user 1 sending [promo_01]) is therefore linked: the user's [referred_by]
    is set, and a promoter record whose id is the user's own id is created
    and counts the user as its referred player. *)
Theorem padded_self_referral_is_linked `{U : Unicode}
    (user : User) (rest : list string) (f : StateFile) :
  let own := String "0" (uid_of user) in
  0 ≤ user_id user →
  player_referred_by (loaded f) (uid_of user) = None →
  promoters (loaded f) !! own = None →
  py_int own = Ok (user_id user)
  ∧ ∃ s' pr,
      start user (("promo_" +:+ own) :: rest) f = ([ESave s'; EReply Welcome], Ok tt)
      ∧ player_referred_by s' (uid_of user) = Some own
      ∧ promoters s' !! own = Some pr
      ∧ promoter_id pr = user_id user
      ∧ referred_players pr = 1
      ∧ ∀ k, k ≠ own → promoters s' !! k = promoters (loaded f) !! k.
Proof.
  intros own Hpos Hnone Hpr.
  assert (py_int own = Ok (user_id user)) as Hint by by apply py_int_padded.
  split; [done|].
  rewrite start_promo_token by done.
  rewrite (link_referral_links _ user own (promoter_shell own (user_id user)));
    [|apply String_ne|].
  2:{ right. rewrite get_or_create_player_promoters. split; [done|]. by eexists. }
  do 2 eexists. split; [reflexivity|]. split_and!.
  - unfold player_referred_by. simpl. rewrite lookup_alter_eq.
    by rewrite get_or_create_player_lookup.
  - simpl. by rewrite lookup_insert_eq.
  - done.
  - done.
  - intros k Hk. simpl. rewrite lookup_insert_ne by done.
    by rewrite get_or_create_player_promoters.
Qed.

Lemma padded_self_referral_is_linked_witness :
  py_int "01" = Ok (user_id alice)
  ∧ ∃ s' pr,
      start alice ["promo_01"] Absent = ([ESave s'; EReply Welcome], Ok tt)
      ∧ player_referred_by s' "1" = Some "01"
      ∧ promoters s' !! "01" = Some pr
      ∧ promoter_id pr = 1 ∧ referred_players pr = 1.
Proof.
  destruct (padded_self_referral_is_linked alice [] Absent)
    as (Hint & s' & pr & Heq & Href & Hpr & Hid & Hcount & _).
  - simpl. lia.
  - reflexivity.
  - reflexivity.
  - split; [exact Hint|]. exists s', pr.
    split; [exact Heq|]. split; [exact Href|]. split; [exact Hpr|].
    split; [exact Hid|exact Hcount].
Defined.

(** ** Promoter materials, repeated *)

(** X5: [promo] is idempotent on the state file.  A completed run leaves the
    user's promoter record with the user's current names; when there was no
    record it is the fresh one, with zero counters and the promo code
    [promo_<id>]; players and tables are untouched; and a second completed run
    for the same user changes nothing. *)
Theorem promo_idempotent `{U : Unicode} (ADMIN_ID : Z) (user : User) (f : StateFile) :
  let f1 := after ADMIN_ID (Promo user) 3 f in
  let pr := default (new_promoter user) (promoters (loaded f) !! uid_of user) in
  promoters (loaded f1)
  = <[uid_of user := set_names (user_username user) (Some (user_first_name user)) pr]>
      (promoters (loaded f))
  ∧ set_names (user_username user) (Some (user_first_name user)) (new_promoter user)
    = new_promoter user
  ∧ players (loaded f1) = players (loaded f)
  ∧ tables (loaded f1) = tables (loaded f)
  ∧ next_table_id (loaded f1) = next_table_id (loaded f)
  ∧ loaded (after ADMIN_ID (Promo user) 3 f1) = loaded f1.
Proof.
  intros f1 pr.
  assert (∀ g, loaded (after ADMIN_ID (Promo user) 3 g)
               = set_promoters
                   (insert (uid_of user)
                      (set_names (user_username user) (Some (user_first_name user))
                         (default (new_promoter user)
                            (promoters (loaded g) !! uid_of user))))
                   (loaded g)) as Hrun.
  { intros g. unfold after. simpl. by rewrite promo_events. }
  split_and!; try done; try (unfold f1; by rewrite Hrun).
  rewrite Hrun. unfold f1. rewrite Hrun. unfold set_promoters. simpl.
  rewrite lookup_insert_eq. simpl. by rewrite insert_insert_eq.
Qed.

(** ** Commands that never write *)

Lemma commit_no_saves n evs f : saves evs = [] → commit (take n evs) f = f.
Proof.
  intros Hs. destruct (commit_take n evs f) as [->|(s & Hin & _)]; [done|].
  rewrite Hs in Hin. by apply elem_of_nil in Hin.
Qed.

(** X6: the administrator gate.  For a user other than the administrator,
    [tables], [winner] and [promostats] do nothing at all: no reply, no save,
    whatever the arguments and the state file. *)
Theorem admin_gate `{U : Unicode} (ADMIN_ID : Z) (user : User) (args : list string) (f : StateFile) :
  user_id user ≠ ADMIN_ID →
  tables_cmd ADMIN_ID user f = ([], Ok tt)
  ∧ winner ADMIN_ID user args f = ([], Ok tt)
  ∧ promostats ADMIN_ID user f = ([], Ok tt)
  ∧ ∀ n, after ADMIN_ID (Winner user args) n f = f.
Proof.
  intros Hne. split_and!.
  - unfold tables_cmd. by rewrite bool_decide_eq_true_2.
  - by apply winner_not_admin.
  - unfold promostats. by rewrite bool_decide_eq_true_2.
  - intros n. unfold after. simpl. rewrite winner_not_admin by done. by destruct n.
Qed.

Lemma admin_gate_witness :
  winner 99 alice ["1"; "@alice"] table_full = ([], Ok tt).
Proof.
  destruct (admin_gate 99 alice ["1"; "@alice"] table_full) as (_ & H & _).
  - by vm_compute.
  - exact H.
Defined.

(** X7: [help], [status], [tables], [promostats], and [join] outside a group
    chat never write the state file, wherever their run stops.  In particular
    the player record that [status] creates for a user it has never seen lives
    only in memory. *)
Theorem read_only_commands `{U : Unicode} (ADMIN_ID : Z) (r : Request) (n : nat) (f : StateFile) :
  match r with
  | Start _ _ | Promo _ | Winner _ _ => False
  | Join chat_type _ => chat_type ∉ ["group"; "supergroup"]
  | HelpCmd | StatusCmd _ | TablesCmd _ | Promostats _ => True
  end →
  saves (handle ADMIN_ID r f).1 = [] ∧ after ADMIN_ID r n f = f.
Proof.
  intros Hr.
  assert (saves (handle ADMIN_ID r f).1 = []) as Hs.
  { destruct r as [user args| |user|user|chat_type user|user|user args|user];
      simpl in *; try done.
    - by destruct (status_cmd_events user f) as [p ->].
    - by rewrite join_outside_group.
    - by destruct (tables_cmd_events ADMIN_ID user f) as [->|[->|[rows ->]]].
    - by destruct (promostats_events ADMIN_ID user f) as [->|[->|[rows ->]]]. }
  split; [done|]. by apply commit_no_saves.
Qed.

Lemma read_only_commands_witness :
  players (loaded (after 99 (StatusCmd frank) 9 table_full)) !! uid_of frank = None.
Proof.
  destruct (read_only_commands 99 (StatusCmd frank) 9 table_full) as [_ ->].
  - exact I.
  - reflexivity.
Defined.

(** ** Every save is a sequence of elementary updates *)

Lemma start_moves `{U : Unicode} user args f s' :
  s' ∈ saves (start user args f).1 → rtc move (loaded f) s'.
Proof.
  intros [_ Hs']%start_saves.
  eapply rtc_l; [apply (move_player _ user)|].
  destruct Hs' as [->|(Hnone & arg0 & rest & _ & _ & Hlink)]; [done|].
  apply link_referral_ok in Hlink as [_ [->|(pid & pr0 & _ & Hne & Hpr0 & ->)]];
    [done|].
  apply rtc_once.
  apply (move_link _ (uid_of user)
           (default (new_player user) (players (loaded f) !! uid_of user)));
    [apply get_or_create_player_lookup| |done].
  unfold player_referred_by in Hnone.
  by rewrite get_or_create_player_lookup in Hnone.
Qed.

Lemma promo_moves `{U : Unicode} user f s' :
  s' ∈ saves (promo user f).1 → rtc move (loaded f) s'.
Proof.
  rewrite promo_events. simpl. intros ->%list_elem_of_singleton.
  apply rtc_once, move_promo.
Qed.

Lemma open_table_moves `{U : Unicode} s s1 ti t :
  open_table s = (s1, (ti, t)) → rtc move s s1.
Proof.
  unfold open_table. destruct (find_waiting_table s) as [it|] eqn:E.
  - by intros [= <- _].
  - intros H. apply rtc_once.
    assert (s1 = (create_table s).1) as -> by (by rewrite H). by apply move_table.
Qed.

Lemma join_moves `{U : Unicode} chat_type user f s' :
  s' ∈ saves (join chat_type user f).1 → rtc move (loaded f) s'.
Proof.
  destruct (decide (chat_type ∈ ["group"; "supergroup"])) as [Hchat|Hchat];
    [|rewrite join_outside_group by done; by intros ?%elem_of_nil].
  destruct (open_table (get_or_create_player (loaded f) user))
    as [s1 [ti t]] eqn:Hopen.
  rewrite (join_events _ _ _ _ _ _ Hchat Hopen).
  destruct (open_table_spec _ _ _ _ Hopen) as (Hpl & Hpr & [k Hk] & Hw & Hlen & _).
  set (uid := uid_of user). set (t1 := set_table_players (λ l, l ++ [uid]) t).
  case_bool_decide as Hdup; [by intros ?%elem_of_nil|].
  set (sa := set_players _ _).
  assert (rtc move (loaded f) sa) as Hsa.
  { eapply rtc_l; [apply (move_player _ user)|].
    eapply rtc_trans; [by eapply open_table_moves|].
    apply rtc_once. eapply move_seat; try done.
    rewrite Hpl. unfold uid. by rewrite get_or_create_player_lookup. }
  case_bool_decide as Hfull; simpl; intros Hs'.
  - apply elem_of_cons in Hs' as [->|Hs']; [done|].
    apply list_elem_of_singleton in Hs' as ->.
    eapply rtc_r; [done|]. apply (move_run sa ti k t1); [|done|lia].
    unfold sa. simpl. by rewrite list_lookup_alter_eq, Hk.
  - by apply list_elem_of_singleton in Hs' as ->.
Qed.

Lemma winner_moves `{U : Unicode} ADMIN_ID user args f s' :
  s' ∈ saves (winner ADMIN_ID user args f).1 → rtc move (loaded f) s'.
Proof.
  destruct (decide (user_id user = ADMIN_ID)) as [Hadmin|Hadmin];
    [|rewrite winner_not_admin by done; by intros ?%elem_of_nil].
  destruct args as [|tid [|mention rest]];
    [rewrite winner_usage by (done || simpl; lia); by intros ?%elem_of_nil..|].
  rewrite winner_events by done.
  destruct (dict_get tid _) as [[ti t]|] eqn:Hget; [|by intros ?%elem_of_nil].
  case_bool_decide as Hrun; [by intros ?%elem_of_nil|].
  destruct (find_winner _ t mention) as [w|] eqn:Hfw; [|by intros ?%elem_of_nil].
  destruct (players (loaded f) !! w) as [p|] eqn:Hp; [|by intros ?%elem_of_nil].
  simpl. intros ->%list_elem_of_singleton.
  apply rtc_once. eapply move_winner; [by eapply dict_get_Some| | |done].
  - destruct (decide (status t = running)); naive_solver.
  - apply find_winner_Some in Hfw as (i & Hi & _). by eapply list_elem_of_lookup_2.
Qed.

Lemma handle_moves `{U : Unicode} ADMIN_ID r f s' :
  s' ∈ saves (handle ADMIN_ID r f).1 → rtc move (loaded f) s'.
Proof.
  destruct r as [user args| |user|user|chat_type user|user|user args|user]; simpl.
  - apply start_moves.
  - by intros ?%elem_of_nil.
  - apply promo_moves.
  - destruct (status_cmd_events user f) as [p ->]. by intros ?%elem_of_nil.
  - apply join_moves.
  - destruct (tables_cmd_events ADMIN_ID user f) as [->|[->|[rows ->]]];
      by intros ?%elem_of_nil.
  - apply winner_moves.
  - destruct (promostats_events ADMIN_ID user f) as [->|[->|[rows ->]]];
      by intros ?%elem_of_nil.
Qed.

(** ** The elementary updates keep the invariants *)

Lemma move_tables_ok `{U : Unicode} s s' : tables_ok s → move s s' → tables_ok s'.
Proof.
  intros Hok Hmove.
  destruct Hmove as [s user|s Hnone|s i k t uid Hi Hw Hlen Hnew Hrec
                    |s i k t Hi Hw Hlen|s uid p pid pr0 Hp Hr Hpr|s user
                    |s i k t w p Hi Hrun Hw Hp].
  - unfold tables_ok. by rewrite get_or_create_player_tables.
  - destruct (create_table s) as [s1 [i t]] eqn:E.
    by destruct (create_table_spec _ _ _ _ E) as (_ & _ & _ & _ & H); auto.
  - apply (tables_ok_on_table i _ s); [done|].
    destruct (tables_ok_lookup _ _ _ _ Hok Hi) as (Hnd & _ & _).
    split_and!; simpl.
    + apply NoDup_app. split_and!; [done| |apply NoDup_singleton].
      intros x Hx ->%list_elem_of_singleton. done.
    + rewrite length_app. simpl. lia.
    + by rewrite Hw.
  - apply tables_ok_on_table; [done|].
    destruct (tables_ok_lookup _ _ _ _ Hok Hi) as (Hnd & Hle & _).
    split_and!; simpl; [done|done|]. intros _. lia.
  - done.
  - done.
  - assert (tables_ok (on_table i (λ _, set_winner_id (Some w) (set_status finished t)) s))
      as Hok'.
    { apply tables_ok_on_table; [done|].
      destruct (tables_ok_lookup _ _ _ _ Hok Hi) as (Hnd & Hle & Hfull).
      split_and!; simpl; [done|done|]. intros _. apply Hfull. by rewrite Hrun. }
    by destruct (accrue_cases
                   (set_players (insert w (set_wins (λ n, n + 1) p))
                      (on_table i (λ _, set_winner_id (Some w) (set_status finished t)) s))
                   (referred_by p))
      as [[-> _]|(x & pr & _ & _ & _ & ->)].
Qed.

Lemma sound_update `{U : Unicode} s s' :
  sound s →
  next_table_id s' = next_table_id s →
  length (tables s') = length (tables s) →
  (∀ i k t', tables s' !! i = Some (k, t') →
     ∃ t, tables s !! i = Some (k, t)
        ∧ table_id t' = table_id t
        ∧ table_sound t'
        ∧ (∀ pid, pid ∈ table_players t' →
             pid ∈ table_players t ∨ is_Some (players s' !! pid))
        ∧ (table_players t' = table_players t
           ∨ Z.of_nat (length (table_players t)) < TABLE_SIZE)) →
  (∀ k, is_Some (players s !! k) → is_Some (players s' !! k)) →
  players_sound (players s') →
  promoters_sound (promoters s') →
  sound s'.
Proof.
  intros (Hnext & Htab & _ & _) Hn Hlen Ht Hmono Hpl Hpr.
  split_and!; [by rewrite Hn, Hlen| |done|done].
  intros i k t' Hi.
  destruct (Ht _ _ _ Hi) as (t & Hti & Hid & Hsound & Henr & Hsame).
  destruct (Htab _ _ _ Hti) as (Hid0 & Hk & _ & Henr0 & Hfull).
  split_and!; [by rewrite Hid|by rewrite Hid|done| |].
  - intros pid Hpid. destruct (Henr pid Hpid); eauto.
  - rewrite Hlen. intros Hlast. specialize (Hfull Hlast).
    destruct Hsame as [->|?]; [done|lia].
Qed.

Lemma sound_replace `{U : Unicode} s s' i0 k0 t0 tn :
  sound s →
  tables s !! i0 = Some (k0, t0) →
  tables s' = <[i0 := (k0, tn)]> (tables s) →
  next_table_id s' = next_table_id s →
  table_id tn = table_id t0 →
  table_sound tn →
  (∀ pid, pid ∈ table_players tn →
     pid ∈ table_players t0 ∨ is_Some (players s' !! pid)) →
  (table_players tn = table_players t0
   ∨ Z.of_nat (length (table_players t0)) < TABLE_SIZE) →
  (∀ k, is_Some (players s !! k) → is_Some (players s' !! k)) →
  players_sound (players s') →
  promoters_sound (promoters s') →
  sound s'.
Proof.
  intros Hs Hi0 Ht Hn Hid Hsound Henr Hsame Hmono Hpl Hpr.
  apply (sound_update s); try done.
  - by rewrite Ht, length_insert.
  - intros i k t'. rewrite Ht.
    intros [(<- & [= <- <-] & _)|[Hne Hi]]%list_lookup_insert_Some.
    + exists t0. by split_and!.
    + exists t'. destruct Hs as (_ & Htab & _).
      destruct (Htab _ _ _ Hi) as (_ & _ & ? & _). split_and!; auto.
Qed.

Lemma sound_keep `{U : Unicode} s s' :
  sound s →
  tables s' = tables s →
  next_table_id s' = next_table_id s →
  (∀ k, is_Some (players s !! k) → is_Some (players s' !! k)) →
  players_sound (players s') →
  promoters_sound (promoters s') →
  sound s'.
Proof.
  intros Hs Ht Hn Hmono Hpl Hpr.
  apply (sound_update s); try done; [by rewrite Ht|].
  intros i k t'. rewrite Ht. intros Hi. exists t'.
  destruct Hs as (_ & Htab & _). destruct (Htab _ _ _ Hi) as (_ & _ & ? & _).
  split_and!; auto.
Qed.

Lemma players_sound_alter (f : Player → Player) k m :
  (∀ p, player_id (f p) = player_id p
        ∧ player_promo_code (f p) = player_promo_code p
        ∧ joined_tables p ≤ joined_tables (f p)
        ∧ wins p ≤ wins (f p)) →
  players_sound m → players_sound (alter f k m).
Proof.
  intros Hf Hm k' p' [(<- & p & Hp & ->)|[_ Hp]]%lookup_alter_Some; [|by eapply Hm].
  destruct (Hm _ _ Hp) as (? & ? & ? & ?), (Hf p) as (-> & -> & ? & ?).
  split_and!; auto; lia.
Qed.

Lemma is_Some_alter {A} (f : A → A) k (m : gmap string A) k' :
  is_Some (m !! k') → is_Some (alter f k m !! k').
Proof. intros H. by apply lookup_alter_is_Some. Qed.

(** In a sound aggregate the key of the next table is not taken. *)
Lemma sound_fresh_key `{U : Unicode} s :
  sound s → dict_get (str (next_table_id s)) (tables s) = None.
Proof.
  intros (Hnext & Htab & _). unfold dict_get.
  apply fmap_None, list_find_None, Forall_lookup.
  intros i [k t] Hi. simpl. intros ->.
  destruct (Htab _ _ _ Hi) as (Hid & Hk & _).
  apply (inj pretty) in Hk. apply lookup_lt_Some in Hi. lia.
Qed.

Lemma create_table_fresh `{U : Unicode} s :
  sound s →
  (create_table s).1
  = mkState (tables s ++ [(str (next_table_id s), new_table (next_table_id s))])
      (next_table_id s + 1) (players s) (promoters s).
Proof.
  intros Hs. unfold create_table, set_tables, dict_set. simpl.
  by rewrite (sound_fresh_key s Hs).
Qed.

(** When no table has a free seat, every table is full. *)
Lemma no_open_table_full s i k t :
  tables_ok s → find_waiting_table s = None → tables s !! i = Some (k, t) →
  Z.of_nat (length (table_players t)) = TABLE_SIZE.
Proof.
  intros Hok Hnone Hi.
  destruct (tables_ok_lookup _ _ _ _ Hok Hi) as (_ & Hle & Hfull).
  unfold find_waiting_table in Hnone.
  apply fmap_None, list_find_None in Hnone.
  pose proof (Forall_lookup_1 _ _ _ _ Hnone Hi) as Hnot.
  unfold is_open in Hnot. simpl in Hnot.
  destruct (decide (status t = waiting)); [|auto].
  assert (¬ Z.of_nat (length (table_players t)) < TABLE_SIZE) by (intros ?; by apply Hnot).
  lia.
Qed.

Lemma sound_create `{U : Unicode} s :
  tables_ok s → sound s → find_waiting_table s = None → sound (create_table s).1.
Proof.
  intros Hok Hs Hnone. rewrite create_table_fresh by done.
  destruct Hs as (Hnext & Htab & Hpl & Hpr).
  split_and!; simpl; [rewrite length_app; simpl; lia| |done|done].
  intros i k t [Hi|[Hi Hlast]]%lookup_app_Some.
  - destruct (Htab _ _ _ Hi) as (? & ? & ? & ? & _). split_and!; auto.
    intros _. by eapply no_open_table_full.
  - destruct (i - length (tables s))%nat eqn:E; [|done].
    simpl in Hlast. injection Hlast as <- <-.
    split_and!; simpl.
    + apply lookup_lt_Some in Hi || idtac. lia.
    + done.
    + unfold table_sound. simpl. split_and!; [done|done| |done].
      split; [done|]. by intros [? ?].
    + by intros pid ?%elem_of_nil.
    + rewrite length_app. simpl. lia.
Qed.

Lemma promoters_sound_insert `{U : Unicode} m k pr :
  promoters_sound m →
  promo_code pr = "promo_" +:+ k → py_int k = Ok (promoter_id pr) →
  total_paid pr = 0%float → 0 ≤ referred_players pr →
  promoters_sound (<[k := pr]> m).
Proof.
  intros Hm ? ? ? ? k' pr' [[<- <-]|[_ Hk]]%lookup_insert_Some; [done|by eapply Hm].
Qed.

Lemma players_sound_insert m k p :
  players_sound m →
  k = str (player_id p) → player_promo_code p = None →
  0 ≤ joined_tables p → 0 ≤ wins p →
  players_sound (<[k := p]> m).
Proof.
  intros Hm ? ? ? ? k' p' [[<- <-]|[_ Hk]]%lookup_insert_Some; [done|by eapply Hm].
Qed.

Lemma table_sound_lookup `{U : Unicode} s i k t : sound s → tables s !! i = Some (k, t) → table_sound t.
Proof. intros (_ & Htab & _) Hi. by destruct (Htab _ _ _ Hi) as (_ & _ & ? & _). Qed.

Lemma sound_accrue `{U : Unicode} s r : sound s → sound (accrue s r).
Proof.
  intros Hs.
  destruct (accrue_cases s r) as [[-> _]|(x & pr & _ & _ & Hx & ->)]; [done|].
  pose proof Hs as (_ & _ & Hpl & Hpr). destruct (Hpr _ _ Hx) as (? & ? & ? & ?).
  apply (sound_keep s); simpl; try done. by apply promoters_sound_insert.
Qed.

Lemma move_sound `{U : Unicode} s s' : tables_ok s → sound s → move s s' → sound s'.
Proof.
  intros Hok Hs Hmove. pose proof Hs as (Hnext & Htab & Hpl & Hpr).
  destruct Hmove as [s user|s Hnone|s i k t uid Hi Hw Hlen Hnew Hrec
                    |s i k t Hi Hw Hlen|s uid p pid pr0 Hp Hr Hpr0|s user
                    |s i k t w p Hi Hrun Hw Hp].
  - apply (sound_keep s); try done.
    + apply get_or_create_player_tables.
    + unfold get_or_create_player. by case_match.
    + intros k Hk. unfold get_or_create_player. case_match; [done|]. simpl.
      apply lookup_insert_is_Some'. by right.
    + unfold get_or_create_player. case_match; [done|]. simpl.
      by apply players_sound_insert.
    + by rewrite get_or_create_player_promoters.
  - by apply sound_create.
  - pose proof (table_sound_lookup _ _ _ _ Hs Hi) as (Hb & Hp & Hfin & Hwin).
    eapply (sound_replace s _ i k t (set_table_players (λ l, l ++ [uid]) t));
      try done.
    + simpl. by apply (on_table_tables s i k t).
    + split_and!; simpl; try done. intros w Hw'. apply elem_of_app. left. auto.
    + simpl. intros pid [?|Hpid]%elem_of_app; [by left|].
      apply list_elem_of_singleton in Hpid as ->. right. by apply is_Some_alter.
    + by right.
    + simpl. intros k'. apply is_Some_alter.
    + simpl. apply players_sound_alter; [|done]. intros p0. simpl. split_and!; lia || done.
  - pose proof (table_sound_lookup _ _ _ _ Hs Hi) as (Hb & Hp & Hfin & Hwin).
    eapply (sound_replace s _ i k t (set_status running t)); try done.
    + by apply (on_table_tables s i k t).
    + split_and!; simpl; try done. split; [done|]. intros Hsome.
      apply Hfin in Hsome. congruence.
    + simpl. by left.
    + by left.
  - apply (sound_keep s); try done.
    + simpl. intros k'. apply is_Some_alter.
    + simpl. apply players_sound_alter; [|done]. intros p0. simpl. split_and!; lia || done.
    + simpl. destruct Hpr0 as [Hpr0|(_ & n & Hn & ->)].
      * destruct (Hpr _ _ Hpr0) as (? & ? & ? & ?).
        apply promoters_sound_insert; simpl; try done. lia.
      * by apply promoters_sound_insert.
  - apply (sound_keep s); try done. simpl.
    destruct (promoters s !! uid_of user) as [pr|] eqn:E; simpl.
    + destruct (Hpr _ _ E) as (? & ? & ? & ?). by apply promoters_sound_insert.
    + apply promoters_sound_insert; simpl; try done. apply py_int_of_str.
  - pose proof (table_sound_lookup _ _ _ _ Hs Hi) as (Hb & Hpt & Hfin & Hwin).
    destruct (Hpl _ _ Hp) as (? & ? & ? & ?).
    apply sound_accrue.
    eapply (sound_replace s _ i k t (set_winner_id (Some w) (set_status finished t)));
      try done.
    + simpl. by apply (on_table_tables s i k t).
    + split_and!; simpl; try done. by intros w' [= <-].
    + simpl. by left.
    + by left.
    + simpl. intros k' Hk'. apply lookup_insert_is_Some'. by right.
    + simpl. apply players_sound_insert; simpl; try done. lia.
Qed.

(** ** The elementary updates only add *)

Lemma status_le_refl a : status_le a a = true.
Proof. by destruct a. Qed.

Lemma status_le_trans a b c :
  status_le a b = true → status_le b c = true → status_le a c = true.
Proof. by destruct a, b, c. Qed.

Lemma table_extends_refl t : table_extends t t.
Proof. split_and!; auto using status_le_refl. Qed.

Lemma table_extends_trans t1 t2 t3 :
  table_extends t1 t2 → table_extends t2 t3 → table_extends t1 t3.
Proof.
  intros (? & ? & ? & ? & ?) (? & ? & ? & ? & ?).
  split_and!; [congruence|congruence|by eapply status_le_trans|by etrans|auto].
Qed.

Lemma player_extends_refl p : player_extends p p.
Proof. by split_and!. Qed.

Lemma player_extends_trans p1 p2 p3 :
  player_extends p1 p2 → player_extends p2 p3 → player_extends p1 p3.
Proof.
  intros (? & ? & ? & ? & ? & ?) (? & ? & ? & ? & ? & ?).
  split_and!; [congruence|congruence|congruence|lia|lia|auto].
Qed.

Lemma promoter_extends_refl pr : promoter_extends pr pr.
Proof. by split_and!. Qed.

Lemma promoter_extends_trans p1 p2 p3 :
  promoter_extends p1 p2 → promoter_extends p2 p3 → promoter_extends p1 p3.
Proof.
  intros (? & ? & ? & ?) (? & ? & ? & ?).
  split_and!; [congruence|congruence|congruence|lia].
Qed.

Lemma extends_refl s : extends s s.
Proof.
  split_and!; [done|..]; eauto using table_extends_refl, player_extends_refl,
    promoter_extends_refl.
Qed.

Lemma extends_trans s1 s2 s3 : extends s1 s2 → extends s2 s3 → extends s1 s3.
Proof.
  intros (Hn & Ht & Hp & Hr) (Hn' & Ht' & Hp' & Hr'). split_and!; [lia|..].
  - intros i k t Hi. destruct (Ht _ _ _ Hi) as (t' & Hi' & ?).
    destruct (Ht' _ _ _ Hi') as (t'' & ? & ?).
    eauto using table_extends_trans.
  - intros k p Hk. destruct (Hp _ _ Hk) as (p' & Hk' & ?).
    destruct (Hp' _ _ Hk') as (p'' & ? & ?). eauto using player_extends_trans.
  - intros k p Hk. destruct (Hr _ _ Hk) as (p' & Hk' & ?).
    destruct (Hr' _ _ Hk') as (p'' & ? & ?). eauto using promoter_extends_trans.
Qed.

Lemma tables_extend_replace (l : list (string * Table)) i0 k0 t0 tn :
  l !! i0 = Some (k0, t0) → table_extends t0 tn →
  ∀ i k t, l !! i = Some (k, t) →
    ∃ t', <[i0 := (k0, tn)]> l !! i = Some (k, t') ∧ table_extends t t'.
Proof.
  intros Hi0 Hext i k t Hi. destruct (decide (i = i0)) as [->|Hne].
  - rewrite Hi0 in Hi. injection Hi as <- <-. exists tn. split; [|done].
    apply list_lookup_insert_eq. by eapply lookup_lt_Some.
  - exists t. rewrite list_lookup_insert_ne by done. auto using table_extends_refl.
Qed.

Lemma players_extend_alter (f : Player → Player) k0 (m : gmap string Player) :
  (∀ p, m !! k0 = Some p → player_extends p (f p)) →
  ∀ k p, m !! k = Some p →
    ∃ p', alter f k0 m !! k = Some p' ∧ player_extends p p'.
Proof.
  intros Hf k p Hk. destruct (decide (k = k0)) as [->|Hne].
  - exists (f p). rewrite lookup_alter_eq, Hk. auto.
  - exists p. rewrite lookup_alter_ne by done. auto using player_extends_refl.
Qed.

Lemma players_extend_insert k0 p' (m : gmap string Player) :
  (∀ p, m !! k0 = Some p → player_extends p p') →
  ∀ k p, m !! k = Some p →
    ∃ p'', <[k0 := p']> m !! k = Some p'' ∧ player_extends p p''.
Proof.
  intros Hf k p Hk. destruct (decide (k = k0)) as [->|Hne].
  - exists p'. rewrite lookup_insert_eq. auto.
  - exists p. rewrite lookup_insert_ne by done. auto using player_extends_refl.
Qed.

Lemma promoters_extend_insert k0 pr' (m : gmap string Promoter) :
  (∀ pr, m !! k0 = Some pr → promoter_extends pr pr') →
  ∀ k pr, m !! k = Some pr →
    ∃ pr'', <[k0 := pr']> m !! k = Some pr'' ∧ promoter_extends pr pr''.
Proof.
  intros Hf k pr Hk. destruct (decide (k = k0)) as [->|Hne].
  - exists pr'. rewrite lookup_insert_eq. auto.
  - exists pr. rewrite lookup_insert_ne by done. auto using promoter_extends_refl.
Qed.

Lemma extends_accrue s r : extends s (accrue s r).
Proof.
  destruct (accrue_cases s r) as [[-> _]|(x & pr & _ & _ & Hx & ->)];
    [apply extends_refl|].
  split_and!; simpl; [done|..];
    eauto using table_extends_refl, player_extends_refl.
  apply promoters_extend_insert. intros pr' Hpr'.
  rewrite Hx in Hpr'. injection Hpr' as <-. by split_and!.
Qed.

Lemma move_extends `{U : Unicode} s s' : sound s → move s s' → extends s s'.
Proof.
  intros Hs Hmove.
  destruct Hmove as [s user|s Hnone|s i k t uid Hi Hw Hlen Hnew Hrec
                    |s i k t Hi Hw Hlen|s uid p pid pr0 Hp Hr Hpr0|s user
                    |s i k t w p Hi Hrun Hw Hp].
  - unfold get_or_create_player.
    destruct (players s !! str (user_id user)) eqn:E; [apply extends_refl|].
    split_and!; simpl; [done|..];
      eauto using table_extends_refl, promoter_extends_refl.
    apply players_extend_insert. intros p Hp. congruence.
  - rewrite create_table_fresh by done.
    split_and!; simpl; [lia|..];
      eauto using player_extends_refl, promoter_extends_refl.
    intros i k t Hi. exists t. rewrite lookup_app_l by (by eapply lookup_lt_Some).
    auto using table_extends_refl.
  - split_and!; simpl; [done|..]; eauto using promoter_extends_refl.
    + change (alter (λ kt, (kt.1, set_table_players (λ l, l ++ [uid]) t)) i (tables s))
        with (tables (on_table i (λ _, set_table_players (λ l, l ++ [uid]) t) s)).
      rewrite (on_table_tables s i k t) by done.
      apply (tables_extend_replace _ i k t); [done|].
      split_and!; simpl; auto using status_le_refl. by apply prefix_app_r.
    + apply players_extend_alter. intros p _. split_and!; simpl; auto; lia.
  - split_and!; simpl; [done|..];
      eauto using player_extends_refl, promoter_extends_refl.
    change (alter (λ kt, (kt.1, set_status running t)) i (tables s))
      with (tables (on_table i (λ _, set_status running t) s)).
    rewrite (on_table_tables s i k t) by done.
    apply (tables_extend_replace _ i k t); [done|].
    split_and!; simpl; auto. by rewrite Hw.
  - split_and!; simpl; [done|..]; eauto using table_extends_refl.
    + apply players_extend_alter. intros p0 Hp0. rewrite Hp in Hp0.
      injection Hp0 as <-. split_and!; simpl; auto; try lia. by rewrite Hr.
    + apply promoters_extend_insert. intros pr Hpr.
      destruct Hpr0 as [Hpr0|[Hpr0 _]]; rewrite Hpr0 in Hpr; [|done].
      injection Hpr as <-. split_and!; simpl; auto; lia.
  - split_and!; simpl; [done|..];
      eauto using table_extends_refl, player_extends_refl.
    apply promoters_extend_insert. intros pr Hpr. rewrite Hpr. simpl.
    by split_and!.
  - eapply extends_trans; [|apply extends_accrue].
    pose proof (table_sound_lookup _ _ _ _ Hs Hi) as (_ & _ & Hfin & _).
    split_and!; simpl; [done|..]; eauto using promoter_extends_refl.
    + change (alter (λ kt, (kt.1, set_winner_id (Some w) (set_status finished t))) i
                (tables s))
        with (tables (on_table i (λ _, set_winner_id (Some w) (set_status finished t)) s)).
      rewrite (on_table_tables s i k t) by done.
      apply (tables_extend_replace _ i k t); [done|].
      split_and!; simpl; auto; [by rewrite Hrun|].
      intros w' Hw'. assert (status t = finished) by (apply Hfin; eauto). congruence.
    + apply players_extend_insert. intros p0 Hp0. rewrite Hp in Hp0.
      injection Hp0 as <-. split_and!; simpl; auto; lia.
Qed.

(** ** Invariants of every state file the bot can produce *)

Lemma moves_inv `{U : Unicode} s s' :
  rtc move s s' → tables_ok s → sound s → tables_ok s' ∧ sound s' ∧ extends s s'.
Proof.
  induction 1 as [s|s1 s2 s3 Hmove _ IH]; intros Hok Hs.
  - auto using extends_refl.
  - destruct IH as (? & ? & ?);
      [by eapply move_tables_ok|by eapply move_sound|].
    split_and!; [done|done|]. eapply extends_trans; [by apply move_extends|done].
Qed.

Lemma after_inv `{U : Unicode} ADMIN_ID r n f :
  tables_ok (loaded f) → sound (loaded f) →
  tables_ok (loaded (after ADMIN_ID r n f))
  ∧ sound (loaded (after ADMIN_ID r n f))
  ∧ extends (loaded f) (loaded (after ADMIN_ID r n f)).
Proof.
  intros Hok Hs. unfold after.
  destruct (commit_take n (handle ADMIN_ID r f).1 f) as [->|(s & Hin & ->)].
  - auto using extends_refl.
  - rewrite loaded_json. apply moves_inv; [|done..]. by eapply handle_moves.
Qed.

Lemma reachable_sound `{U : Unicode} ADMIN_ID f :
  reachable ADMIN_ID f → tables_ok (loaded f) ∧ sound (loaded f).
Proof.
  induction 1 as [f Hf|r n f _ [IHt IHs]].
  - rewrite Hf. split; [by constructor|].
    split_and!; [done|by intros i k t ?|by intros k p ?|by intros k p ?].
  - by destruct (after_inv ADMIN_ID r n f) as (? & ? & _).
Qed.

Lemma run_all_inv `{U : Unicode} ADMIN_ID rs f :
  tables_ok (loaded f) → sound (loaded f) →
  extends (loaded f) (loaded (run_all ADMIN_ID rs f)).
Proof.
  revert f. induction rs as [|[r n] rs IH]; intros f Hok Hs; simpl.
  - apply extends_refl.
  - destruct (after_inv ADMIN_ID r n f) as (? & ? & ?); [done..|].
    eapply extends_trans; [done|]. by apply IH.
Qed.

(** X8: table numbering.  In every reachable state file the tables are
    numbered 1, 2, 3, ... in the order they were created, each is stored under
    the decimal text of its number, the counter is one more than the number of
    tables, and looking a table up by that text, as [winner] does, finds that
    table and no other. *)
Theorem table_ids_sequential `{U : Unicode}
    (ADMIN_ID : Z) (f : StateFile) (i : nat) (k : string) (t : Table) :
  reachable ADMIN_ID f →
  tables (loaded f) !! i = Some (k, t) →
  table_id t = Z.of_nat i + 1
  ∧ k = str (table_id t)
  ∧ next_table_id (loaded f) = Z.of_nat (length (tables (loaded f))) + 1
  ∧ dict_get (str (Z.of_nat i + 1)) (tables (loaded f)) = Some (i, t).
Proof.
  intros [_ Hs]%reachable_sound Hi. pose proof Hs as (Hnext & Htab & _).
  destruct (Htab _ _ _ Hi) as (Hid & Hk & _). split_and!; try done.
  unfold dict_get.
  assert (list_find (λ kt : string * Table, kt.1 = str (Z.of_nat i + 1))
            (tables (loaded f)) = Some (i, (k, t))) as ->; [|done].
  apply list_find_Some. split_and!; [done|simpl; congruence|].
  intros j [k' t'] Hj Hlt. simpl. intros ->.
  destruct (Htab _ _ _ Hj) as (Hid' & Hk' & _).
  apply (inj pretty) in Hk'. lia.
Qed.

Lemma table_ids_sequential_witness :
  dict_get "2" (tables (loaded six_joined)) = Some (1%nat, mkTable 2 waiting 5 ["6"] None ∅).
Proof.
  destruct (table_ids_sequential 99 six_joined 1 "2" (mkTable 2 waiting 5 ["6"] None ∅))
    as (_ & _ & _ & H).
  - exact six_joined_reachable.
  - vm_compute. reflexivity.
  - exact H.
Defined.

(** X9: nothing is taken back.  Starting from a reachable state file, after
    any sequence of commands (runs cut short included) every table is still at
    its position under its key, with the same number and buy-in, a status that
    has only moved forward (waiting, running, finished), a player list that
    has only grown at the end, and its winner, once set, unchanged; every
    player record is still there with its id and names as first stored and
    with counters that have not decreased; every promoter record is still
    there with its id, promo code and total paid unchanged; and the table
    counter has not decreased. *)
Theorem nothing_is_taken_back `{U : Unicode}
    (ADMIN_ID : Z) (rs : list (Request * nat)) (f : StateFile) :
  reachable ADMIN_ID f →
  extends (loaded f) (loaded (run_all ADMIN_ID rs f)).
Proof. intros [??]%reachable_sound. by apply run_all_inv. Qed.

Lemma nothing_is_taken_back_witness :
  extends (loaded four_seated)
    (loaded (run_all 99
               [(Join "group" erin, 9%nat); (Winner admin ["1"; "@dave"], 9%nat);
                (Join "group" frank, 1%nat)] four_seated)).
Proof.
  apply (nothing_is_taken_back 99 _ four_seated).
  unfold four_seated, referred_file.
  apply run_all_reachable, reach_after. by apply reach_empty.
Defined.

(** X10: winners on record.  In every reachable state file a table is
    [finished] exactly when it has a [winner_id]; the recorded winner is one
    of the table's players and has a player record; and every table carries
    the configured buy-in. *)
Theorem winner_recorded_iff_finished `{U : Unicode}
    (ADMIN_ID : Z) (f : StateFile) (i : nat) (k : string) (t : Table) :
  reachable ADMIN_ID f →
  tables (loaded f) !! i = Some (k, t) →
  (status t = finished ↔ is_Some (winner_id t))
  ∧ (∀ w, winner_id t = Some w →
       w ∈ table_players t ∧ is_Some (players (loaded f) !! w))
  ∧ buy_in t = BUY_IN.
Proof.
  intros [_ (_ & Htab & _)]%reachable_sound Hi.
  destruct (Htab _ _ _ Hi) as (_ & _ & (? & _ & ? & Hw) & Henr & _).
  split_and!; [done| |done]. intros w Hw'. split; auto.
Qed.

Lemma winner_recorded_iff_finished_witness :
  status (table_one finished (Some "4")) = finished
  ↔ is_Some (winner_id (table_one finished (Some "4"))).
Proof.
  destruct (winner_recorded_iff_finished 99
              (after 99 (Winner admin ["1"; "@dave"]) 9 table_full) 0 "1"
              (table_one finished (Some "4"))) as (H & _).
  - apply reach_after. exact table_full_reachable.
  - vm_compute. reflexivity.
  - exact H.
Defined.

Lemma omap_length_all {A B} (g : A → option B) (l : list A) :
  (∀ x, x ∈ l → is_Some (g x)) → length (omap g l) = length l.
Proof.
  induction l as [|x l IH]; intros H; [done|]. simpl.
  destruct (H x) as [y ->]; [left|]. simpl. f_equal. apply IH.
  intros z Hz. apply H. by right.
Qed.

(** X11: every seated player is known.  In every reachable state file each
    player id in a table's list has a player record, so the announcement of a
    started table skips nobody: it carries one mention per seated player. *)
Theorem seated_players_have_records `{U : Unicode}
    (ADMIN_ID : Z) (f : StateFile) (i : nat) (k : string) (t : Table) :
  reachable ADMIN_ID f →
  tables (loaded f) !! i = Some (k, t) →
  (∀ pid, pid ∈ table_players t → is_Some (players (loaded f) !! pid))
  ∧ length (omap (mention_of (loaded f)) (table_players t))
    = length (table_players t).
Proof.
  intros [_ (_ & Htab & _)]%reachable_sound Hi.
  destruct (Htab _ _ _ Hi) as (_ & _ & _ & Henr & _).
  split; [done|]. apply omap_length_all. intros pid Hpid.
  destruct (Henr pid Hpid) as [p Hp]. unfold mention_of. rewrite Hp. by eexists.
Qed.

Lemma seated_players_have_records_witness :
  length (omap (mention_of (loaded table_full)) (table_players (table_one running None)))
  = length (table_players (table_one running None)).
Proof.
  destruct (seated_players_have_records 99 table_full 0 "1" (table_one running None))
    as [_ Hlen].
  - exact table_full_reachable.
  - vm_compute. reflexivity.
  - exact Hlen.
Defined.

(** X12: tables fill in order.  In every reachable state file every table
    before the last one is full; so the table that [find_waiting_table]
    returns, when there is one, is the last table, and it is the only table
    with a free seat. *)
Theorem tables_fill_in_order `{U : Unicode}
    (ADMIN_ID : Z) (f : StateFile) (i : nat) (k : string) (t : Table) :
  reachable ADMIN_ID f →
  tables (loaded f) !! i = Some (k, t) →
  ((S i < length (tables (loaded f)))%nat →
   Z.of_nat (length (table_players t)) = TABLE_SIZE)
  ∧ (Z.of_nat (length (table_players t)) < TABLE_SIZE →
     S i = length (tables (loaded f)))
  ∧ (∀ j t', find_waiting_table (loaded f) = Some (j, t') →
       S j = length (tables (loaded f))).
Proof.
  intros [_ (_ & Htab & _)]%reachable_sound Hi.
  destruct (Htab _ _ _ Hi) as (_ & _ & _ & _ & Hfull).
  split_and!; [done| |].
  - intros Hlt. apply lookup_lt_Some in Hi.
    destruct (decide (S i < length (tables (loaded f)))%nat) as [Hl|]; [|lia].
    specialize (Hfull Hl). lia.
  - intros j t' ([k' Hj] & _ & Hlt)%find_waiting_table_Some.
    destruct (Htab _ _ _ Hj) as (_ & _ & _ & _ & Hfull').
    apply lookup_lt_Some in Hj.
    destruct (decide (S j < length (tables (loaded f)))%nat) as [Hl|]; [|lia].
    specialize (Hfull' Hl). lia.
Qed.

Lemma tables_fill_in_order_witness :
  Z.of_nat (length (table_players (table_one running None))) = TABLE_SIZE.
Proof.
  destruct (tables_fill_in_order 99 six_joined 0 "1" (table_one running None))
    as (H & _).
  - exact six_joined_reachable.
  - vm_compute. reflexivity.
  - apply H. vm_compute. lia.
Defined.

(** X13: records stay consistent.  In every reachable state file a player is
    stored under the decimal text of its id, with no promo code and
    non-negative counters; a promoter is stored under a key that [int] reads
    as its id, its promo code is [promo_] followed by that key, its
    [total_paid] is still 0.0 (no command ever writes it), and its count of
    referred players is non-negative. *)
Theorem records_consistent `{U : Unicode} (ADMIN_ID : Z) (f : StateFile) :
  reachable ADMIN_ID f →
  (∀ k p, players (loaded f) !! k = Some p →
     k = str (player_id p) ∧ player_promo_code p = None
     ∧ 0 ≤ joined_tables p ∧ 0 ≤ wins p)
  ∧ (∀ k pr, promoters (loaded f) !! k = Some pr →
       promo_code pr = "promo_" +:+ k
       ∧ py_int k = Ok (promoter_id pr)
       ∧ total_paid pr = 0%float
       ∧ 0 ≤ referred_players pr).
Proof. by intros [_ (_ & _ & ? & ?)]%reachable_sound. Qed.

Lemma records_consistent_witness :
  promo_code bob_shell = "promo_" +:+ "2" ∧ py_int "2" = Ok (promoter_id bob_shell).
Proof.
  destruct (records_consistent 99 referred_file) as [_ H].
  - unfold referred_file. apply reach_after. by apply reach_empty.
  - destruct (H "2" bob_shell) as (H1 & H2 & _); [reflexivity|].
    split; [exact H1|exact H2].
Defined.

(** ** What a completed enrollment writes *)

Lemma find_waiting_table_player s user :
  find_waiting_table (get_or_create_player s user) = find_waiting_table s.
Proof. unfold find_waiting_table. by rewrite get_or_create_player_tables. Qed.

Lemma joined_players s user :
  alter (set_joined_tables (λ n, n + 1)) (uid_of user)
    (players (get_or_create_player s user))
  = <[uid_of user :=
        set_joined_tables (λ n, n + 1)
          (default (new_player user) (players s !! uid_of user))]> (players s).
Proof.
  unfold get_or_create_player. fold (uid_of user).
  destruct (players s !! uid_of user) as [p|] eqn:E; simpl.
  - by apply alter_alt_Some.
  - by rewrite alter_insert_eq.
Qed.

(** X14: taking a free seat.  When [find_waiting_table] finds a table and the
    user is not in it, a completed [join] in a group chat leaves a state file
    in which that table has the user appended to its players and is [running]
    exactly if that filled it, the user's record (the stored one, or a fresh
    one) has one more joined table, and every other table, player and
    promoter, and the table counter, are as before. *)
Theorem join_takes_free_seat `{U : Unicode}
    (ADMIN_ID : Z) (chat_type : string) (user : User) (f : StateFile)
    (ti : nat) (t : Table) :
  chat_type ∈ ["group"; "supergroup"] →
  find_waiting_table (loaded f) = Some (ti, t) →
  uid_of user ∉ table_players t →
  let s := loaded f in
  let s' := loaded (after ADMIN_ID (Join chat_type user) 4 f) in
  let t1 := set_table_players (λ l, l ++ [uid_of user]) t in
  let tn :=
    if bool_decide (TABLE_SIZE ≤ Z.of_nat (length (table_players t)) + 1)
    then set_status running t1 else t1 in
  let p0 := default (new_player user) (players s !! uid_of user) in
  ∃ k, tables s !! ti = Some (k, t)
    ∧ tables s' = <[ti := (k, tn)]> (tables s)
    ∧ players s' = <[uid_of user := set_joined_tables (λ n, n + 1) p0]> (players s)
    ∧ promoters s' = promoters s
    ∧ next_table_id s' = next_table_id s.
Proof.
  intros Hchat Hfind Hnew s s' t1 tn p0. subst s p0.
  set (s := loaded f) in *.
  destruct (find_waiting_table_Some _ _ _ Hfind) as ([k Hk] & _).
  exists k. split; [done|].
  assert (open_table (get_or_create_player s user)
          = (get_or_create_player s user, (ti, t))) as Hopen.
  { unfold open_table. by rewrite find_waiting_table_player, Hfind. }
  assert (tables (get_or_create_player s user) !! ti = Some (k, t)) as Hk0
    by (by rewrite get_or_create_player_tables).
  unfold s', after. simpl handle.
  rewrite (join_events _ _ _ _ _ _ Hchat Hopen).
  rewrite bool_decide_eq_false_2 by done.
  unfold tn.
  destruct (decide (TABLE_SIZE ≤ Z.of_nat (length (table_players t)) + 1))
    as [Hfull|Hfull].
  - rewrite (bool_decide_eq_true_2 (TABLE_SIZE ≤ _ + 1)) by done.
    rewrite (bool_decide_eq_true_2 (TABLE_SIZE - _ ≤ 0))
      by (simpl; rewrite length_app; simpl; lia).
    simpl.
    split_and!.
    + rewrite list_alter_alter_eq.
      change (alter _ ti (tables (get_or_create_player s user)))
        with (tables (on_table ti (λ _, set_status running t1)
                        (get_or_create_player s user))).
      rewrite (on_table_tables _ ti k t) by done.
      by rewrite get_or_create_player_tables.
    + apply joined_players.
    + apply get_or_create_player_promoters.
    + unfold get_or_create_player. by case_match.
  - rewrite (bool_decide_eq_false_2 (TABLE_SIZE ≤ _ + 1)) by done.
    rewrite (bool_decide_eq_false_2 (TABLE_SIZE - _ ≤ 0))
      by (simpl; rewrite length_app; simpl; lia).
    simpl.
    split_and!.
    + change (alter _ ti (tables (get_or_create_player s user)))
        with (tables (on_table ti (λ _, t1) (get_or_create_player s user))).
      rewrite (on_table_tables _ ti k t) by done.
      by rewrite get_or_create_player_tables.
    + apply joined_players.
    + apply get_or_create_player_promoters.
    + unfold get_or_create_player. by case_match.
Qed.

Lemma join_takes_free_seat_witness :
  tables (loaded (after 99 (Join "group" erin) 4 four_seated))
  = <[0%nat := ("1", table_one running None)]> (tables (loaded four_seated)).
Proof.
  destruct (join_takes_free_seat 99 "group" erin four_seated 0
              (mkTable 1 waiting 5 ["1"; "2"; "3"; "4"] None ∅))
    as (k & Hk & Ht & _).
  - apply list_elem_of_here.
  - vm_compute. reflexivity.
  - intros H.
    repeat (apply elem_of_cons in H as [H|H]; [by vm_compute in H|]).
    by apply elem_of_nil in H.
  - rewrite Ht. vm_compute in Hk. injection Hk as <-. vm_compute. reflexivity.
Defined.

(** X15: opening a table.  On a reachable state file where no table has a
    free seat, a completed [join] in a group chat appends a new table, numbered
    with the current counter and keyed by its decimal text, [waiting], with the
    configured buy-in and the user as its only player; the counter goes up by
    one, the user's record has one more joined table, and every existing
    table, every other player and every promoter is as before. *)
Theorem join_opens_new_table `{U : Unicode}
    (ADMIN_ID : Z) (chat_type : string) (user : User) (f : StateFile) :
  reachable ADMIN_ID f →
  chat_type ∈ ["group"; "supergroup"] →
  find_waiting_table (loaded f) = None →
  let s := loaded f in
  let n := next_table_id s in
  let p0 := default (new_player user) (players s !! uid_of user) in
  loaded (after ADMIN_ID (Join chat_type user) 4 f)
  = mkState (tables s ++ [(str n, mkTable n waiting BUY_IN [uid_of user] None ∅)])
      (n + 1)
      (<[uid_of user := set_joined_tables (λ m, m + 1) p0]> (players s))
      (promoters s).
Proof.
  intros [Hok Hs]%reachable_sound Hchat Hnone s n p0. subst s n p0.
  set (s := loaded f) in *. set (n := next_table_id s).
  set (s0 := get_or_create_player s user).
  assert (sound s0) as Hs0.
  { eapply move_sound; [exact Hok|exact Hs|apply move_player]. }
  assert (open_table s0 = ((create_table s0).1, (length (tables s0), new_table n)))
    as Hopen.
  { unfold open_table. unfold s0 at 1. rewrite find_waiting_table_player, Hnone.
    unfold create_table. simpl. rewrite (sound_fresh_key s0 Hs0). simpl.
    unfold s0, n, get_or_create_player. by case_match. }
  unfold after. simpl handle.
  rewrite (join_events _ _ _ _ _ _ Hchat Hopen).
  rewrite bool_decide_eq_false_2 by (simpl; by intros ?%elem_of_nil).
  rewrite bool_decide_eq_false_2 by (simpl; unfold TABLE_SIZE; lia).
  simpl. rewrite loaded_json.
  unfold set_players, on_table, set_tables, set_next_table_id, dict_set. simpl.
  rewrite (sound_fresh_key s0 Hs0).
  rewrite alter_app_r_alt by done. rewrite Nat.sub_diag. simpl.
  assert (tables s0 = tables s) as -> by apply get_or_create_player_tables.
  assert (next_table_id s0 = n) as ->
    by (unfold s0, n, get_or_create_player; by case_match).
  assert (promoters s0 = promoters s) as -> by apply get_or_create_player_promoters.
  f_equal. apply joined_players.
Qed.

Lemma join_opens_new_table_witness :
  tables (loaded (after 99 (Join "group" frank) 4 table_full))
  = [("1", table_one running None); ("2", mkTable 2 waiting 5 ["6"] None ∅)].
Proof.
  rewrite (join_opens_new_table 99 "group" frank table_full).
  - vm_compute. reflexivity.
  - exact table_full_reachable.
  - apply list_elem_of_here.
  - vm_compute. reflexivity.
Defined.

(** ** Counters and tallies *)

Lemma filter_length_insert {A} (P : A → Prop) `{!∀ x, Decision (P x)}
    (l : list A) i x y :
  l !! i = Some x →
  (length (filter P (<[i:=y]> l)) + (if decide (P x) then 1 else 0)
   = length (filter P l) + (if decide (P y) then 1 else 0))%nat.
Proof.
  revert i. induction l as [|a l IH]; intros [|i] Hi; simplify_eq/=.
  - rewrite !filter_cons. destruct (decide (P x)), (decide (P y)); simpl; lia.
  - rewrite !filter_cons. specialize (IH i Hi).
    destruct (decide (P a)); simpl; lia.
Qed.

Lemma filter_length_none {A} (P : A → Prop) `{!∀ x, Decision (P x)} (l : list A) :
  (∀ i x, l !! i = Some x → ¬ P x) → length (filter P l) = 0%nat.
Proof.
  intros Hno. induction l as [|a l IH]; [done|].
  rewrite filter_cons. rewrite decide_False by (apply (Hno 0%nat); done).
  apply IH. intros i x Hi. by apply (Hno (S i)).
Qed.

Lemma seats_replace uid (l : list (string * Table)) i k t tn :
  l !! i = Some (k, t) →
  (seats uid (<[i := (k, tn)]> l)
   + (if decide (uid ∈ table_players t) then 1 else 0)
   = seats uid l + (if decide (uid ∈ table_players tn) then 1 else 0))%nat.
Proof.
  intros Hi. unfold seats.
  pose proof (filter_length_insert (λ kt : string * Table, uid ∈ table_players kt.2)
                l i (k, t) (k, tn) Hi) as Hlen.
  simpl in Hlen.
  destruct (decide (uid ∈ table_players t)), (decide (uid ∈ table_players tn));
    rewrite ?decide_True in Hlen by done; rewrite ?decide_False in Hlen by done;
    exact Hlen.
Qed.

Lemma victories_replace uid (l : list (string * Table)) i k t tn :
  l !! i = Some (k, t) →
  (victories uid (<[i := (k, tn)]> l)
   + (if decide (winner_id t = Some uid) then 1 else 0)
   = victories uid l + (if decide (winner_id tn = Some uid) then 1 else 0))%nat.
Proof.
  intros Hi. unfold victories.
  pose proof (filter_length_insert (λ kt : string * Table, winner_id kt.2 = Some uid)
                l i (k, t) (k, tn) Hi) as Hlen.
  simpl in Hlen.
  destruct (decide (winner_id t = Some uid)), (decide (winner_id tn = Some uid));
    rewrite ?decide_True in Hlen by done; rewrite ?decide_False in Hlen by done;
    exact Hlen.
Qed.

Lemma seats_new_table uid l k tid :
  seats uid (l ++ [(k, new_table tid)]) = seats uid l.
Proof.
  unfold seats. rewrite filter_app, length_app, filter_cons.
  rewrite decide_False by (simpl; by intros ?%elem_of_nil). simpl. lia.
Qed.

Lemma victories_new_table uid l k tid :
  victories uid (l ++ [(k, new_table tid)]) = victories uid l.
Proof.
  unfold victories. rewrite filter_app, length_app, filter_cons.
  rewrite decide_False by done. simpl. lia.
Qed.

Lemma referrals_insert r (m : gmap string Player) k p' :
  (referrals r (<[k := p']> m)
   + (if decide (referred_by <$> m !! k = Some (Some r)) then 1 else 0)
   = referrals r m + (if decide (referred_by p' = Some r) then 1 else 0))%nat.
Proof.
  unfold referrals.
  set (P := λ kp : string * Player, referred_by kp.2 = Some r).
  destruct (decide (referred_by <$> m !! k = Some (Some r))) as [Ho|Ho].
  - destruct (m !! k) as [p|] eqn:E; [|done]. simpl in Ho.
    assert (filter P m !! k = Some p) as Hold.
    { apply map_lookup_filter_Some. split; [done|]. unfold P. simpl. congruence. }
    assert (size (filter P m) ≠ 0%nat) as Hpos
      by (apply (map_size_ne_0_lookup_2 _ k); by rewrite Hold).
    destruct (decide (referred_by p' = Some r)) as [Hnew|Hnew].
    + rewrite map_filter_insert_True by done.
      rewrite map_size_insert_Some by (by rewrite Hold). lia.
    + rewrite map_filter_insert_False by done. rewrite map_filter_delete.
      rewrite map_size_delete_Some by (by rewrite Hold). lia.
  - assert (filter P m !! k = None) as Hold.
    { apply map_lookup_filter_None. destruct (m !! k) as [p|] eqn:E; [right|by left].
      intros p0 [= <-] HP. apply Ho. unfold P in HP. simpl in *. congruence. }
    destruct (decide (referred_by p' = Some r)) as [Hnew|Hnew].
    + rewrite map_filter_insert_True by done.
      rewrite map_size_insert_None by done. lia.
    + rewrite map_filter_insert_False by done. rewrite map_filter_delete.
      rewrite map_size_delete_None by done. lia.
Qed.

Lemma referrals_none r (m : gmap string Player) :
  (∀ k p, m !! k = Some p → referred_by p ≠ Some r) → referrals r m = 0%nat.
Proof.
  intros Hno. unfold referrals. apply map_size_empty_iff, map_empty.
  intros k. apply map_lookup_filter_None.
  destruct (m !! k) as [p|] eqn:E; [right|by left].
  intros p0 [= <-] HP. by apply (Hno k p).
Qed.

(** An update of a player record that keeps its referrer. *)
Lemma referrals_same r (m : gmap string Player) k p p' :
  m !! k = Some p → referred_by p' = referred_by p →
  referrals r (<[k := p']> m) = referrals r m.
Proof.
  intros Hk Hr. pose proof (referrals_insert r m k p') as Hins.
  rewrite Hk in Hins. simpl in Hins. rewrite Hr in Hins.
  destruct (decide (referred_by p = Some r));
    [rewrite decide_True in Hins by congruence
    |rewrite decide_False in Hins by congruence];
    lia.
Qed.

Lemma referrals_fresh r (m : gmap string Player) k p' :
  m !! k = None → referred_by p' = None →
  referrals r (<[k := p']> m) = referrals r m.
Proof.
  intros Hk Hr. pose proof (referrals_insert r m k p') as Hins.
  rewrite Hk in Hins. simpl in Hins.
  repeat (rewrite decide_False in Hins by congruence). lia.
Qed.

(** A first referrer [pid] for player [k]. *)
Lemma referrals_link r (m : gmap string Player) k p pid :
  m !! k = Some p → referred_by p = None →
  referrals r (alter (set_referred_by (Some pid)) k m)
  = (referrals r m + (if decide (pid = r) then 1 else 0))%nat.
Proof.
  intros Hk Hr. rewrite (alter_alt_Some _ _ _ p) by done.
  pose proof (referrals_insert r m k (set_referred_by (Some pid) p)) as Hins.
  rewrite Hk in Hins. simpl in Hins.
  rewrite decide_False in Hins by congruence.
  destruct (decide (pid = r)) as [->|Hne].
  - rewrite decide_True in Hins by done. lia.
  - rewrite decide_False in Hins by congruence. lia.
Qed.

Lemma referrals_alter r (m : gmap string Player) k g :
  (∀ p, referred_by (g p) = referred_by p) →
  referrals r (alter g k m) = referrals r m.
Proof.
  intros Hg. destruct (m !! k) as [p|] eqn:E.
  - rewrite (alter_alt_Some _ _ _ p) by done. by apply (referrals_same r m k p).
  - by rewrite alter_id'.
Qed.

Lemma seats_replace_same uid (l : list (string * Table)) i k t tn :
  l !! i = Some (k, t) →
  (uid ∈ table_players tn ↔ uid ∈ table_players t) →
  seats uid (<[i := (k, tn)]> l) = seats uid l.
Proof.
  intros Hi Hiff. pose proof (seats_replace uid l i k t tn Hi) as Hlen.
  destruct (decide (uid ∈ table_players t)) as [Hin|Hin].
  - rewrite decide_True in Hlen by (by apply Hiff). lia.
  - rewrite decide_False in Hlen by (by rewrite Hiff). lia.
Qed.

Lemma seats_replace_new uid (l : list (string * Table)) i k t tn :
  l !! i = Some (k, t) →
  uid ∉ table_players t → uid ∈ table_players tn →
  seats uid (<[i := (k, tn)]> l) = S (seats uid l).
Proof.
  intros Hi Hold Hnew. pose proof (seats_replace uid l i k t tn Hi) as Hlen.
  rewrite decide_False in Hlen by done. rewrite decide_True in Hlen by done. lia.
Qed.

Lemma victories_replace_same uid (l : list (string * Table)) i k t tn :
  l !! i = Some (k, t) → winner_id tn = winner_id t →
  victories uid (<[i := (k, tn)]> l) = victories uid l.
Proof.
  intros Hi Heq. pose proof (victories_replace uid l i k t tn Hi) as Hlen.
  rewrite Heq in Hlen. destruct (decide (winner_id t = Some uid)); lia.
Qed.

Lemma victories_replace_new uid (l : list (string * Table)) i k t tn w :
  l !! i = Some (k, t) → winner_id t = None → winner_id tn = Some w →
  victories uid (<[i := (k, tn)]> l)
  = (victories uid l + (if decide (w = uid) then 1 else 0))%nat.
Proof.
  intros Hi Hold Hnew. pose proof (victories_replace uid l i k t tn Hi) as Hlen.
  rewrite Hold, Hnew in Hlen. rewrite decide_False in Hlen by done.
  destruct (decide (w = uid)) as [->|Hne].
  - rewrite decide_True in Hlen by done. lia.
  - rewrite decide_False in Hlen by congruence. lia.
Qed.

(** Somebody without a player record sits at no table and has won none. *)
Lemma seats_absent `{U : Unicode} s uid :
  sound s → players s !! uid = None → seats uid (tables s) = 0%nat.
Proof.
  intros (_ & Htab & _) Hnone. unfold seats. apply filter_length_none.
  intros i [k t] Hi Hin. simpl in Hin.
  destruct (Htab _ _ _ Hi) as (_ & _ & _ & Henr & _).
  destruct (Henr uid Hin) as [p Hp]. congruence.
Qed.

Lemma victories_absent `{U : Unicode} s uid :
  sound s → players s !! uid = None → victories uid (tables s) = 0%nat.
Proof.
  intros (_ & Htab & _) Hnone. unfold victories. apply filter_length_none.
  intros i [k t] Hi Hwin. simpl in Hwin.
  destruct (Htab _ _ _ Hi) as (_ & _ & (_ & _ & _ & Hw) & Henr & _).
  destruct (Henr uid (Hw uid Hwin)) as [p Hp]. congruence.
Qed.

(** Nobody names a referrer that has no promoter record. *)
Lemma referrals_absent s r :
  refs_ok s → promoters s !! r = None → referrals r (players s) = 0%nat.
Proof.
  intros [_ Hr] Hnone. apply referrals_none. intros k p Hk Hp.
  destruct (Hr k p r Hk Hp) as [pr Hpr]. congruence.
Qed.

(** ** The tallies along the elementary updates *)

(** An update that keeps every referrer and every promoter key. *)
Lemma refs_ok_keep s s' :
  promoters s' !! "" = None →
  (∀ k, is_Some (promoters s !! k) → is_Some (promoters s' !! k)) →
  (∀ k p', players s' !! k = Some p' →
     referred_by p' = None
     ∨ ∃ p, players s !! k = Some p ∧ referred_by p = referred_by p') →
  refs_ok s → refs_ok s'.
Proof.
  intros He Hpr Hpl [_ Hr]. split; [done|]. intros k p' r Hk Hp'.
  destruct (Hpl k p' Hk) as [Hn|(p & Hp & Heq)]; [congruence|].
  apply Hpr. apply (Hr k p r Hp). congruence.
Qed.

Lemma refs_ok_accrue s r : refs_ok s → refs_ok (accrue s r).
Proof.
  intros Hok.
  destruct (accrue_cases s r) as [[-> _]|(x & pr & _ & Hx & Hpr & ->)]; [done|].
  apply (refs_ok_keep s); simpl; [| |by eauto|done].
  - rewrite lookup_insert_ne by done. by destruct Hok.
  - intros k Hk. apply lookup_insert_is_Some'. by right.
Qed.

Lemma move_refs_ok `{U : Unicode} s s' : sound s → refs_ok s → move s s' → refs_ok s'.
Proof.
  intros Hs Hok Hmove. pose proof Hok as [He Hr].
  destruct Hmove as [s user|s Hnone|s i k t uid Hi Hw Hlen Hnew Hrec
                    |s i k t Hi Hw Hlen|s uid p pid pr0 Hp Hrp Hpr0|s user
                    |s i k t w p Hi Hrun Hw Hp].
  - by apply preserves_get_or_create_player.
  - rewrite create_table_fresh by done.
    apply (refs_ok_keep s); simpl; by eauto.
  - apply (refs_ok_keep s); simpl; [done|done| |done].
    intros k' p' [(-> & p1 & Hp1 & ->)|[_ Hk']]%lookup_alter_Some; right; eauto.
  - apply (refs_ok_keep s); simpl; by eauto.
  - assert (pid ≠ "") as Hpid.
    { destruct Hpr0 as [Hpid|(_ & n & Hn & _)];
        [intros ->; congruence|by eapply py_int_nonempty]. }
    split; simpl; [by rewrite lookup_insert_ne|].
    intros k' p' r [(-> & p1 & Hp1 & ->)|[_ Hk']]%lookup_alter_Some; simpl.
    + intros [= <-]. rewrite lookup_insert_eq. by eexists.
    + intros Hp'. apply lookup_insert_is_Some'. right. by eapply Hr.
  - apply (refs_ok_keep s); simpl; [| |by eauto|done].
    + rewrite lookup_insert_ne; [done|]. apply str_nonempty.
    + intros k Hk. apply lookup_insert_is_Some'. by right.
  - apply refs_ok_accrue. apply (refs_ok_keep s); simpl; [done|done| |done].
    intros k' p' [[<- <-]|[_ Hk']]%lookup_insert_Some; right; eauto.
Qed.

Lemma ledger_accrue s r : ledger s → ledger (accrue s r).
Proof.
  intros [Hpl Hpr].
  destruct (accrue_cases s r) as [[-> _]|(x & pr & _ & _ & Hx & ->)]; [done|].
  split; simpl; [done|].
  intros k pr' [[<- <-]|[_ Hk]]%lookup_insert_Some; simpl; by auto.
Qed.

Lemma move_ledger `{U : Unicode} s s' :
  sound s → refs_ok s → ledger s → move s s' → ledger s'.
Proof.
  intros Hs Hok [Hpl Hpr] Hmove.
  destruct Hmove as [s user|s Hnone|s i k t uid Hi Hw Hlen Hnew Hrec
                    |s i k t Hi Hw Hlen|s uid p pid pr0 Hp Hrp Hpr0|s user
                    |s i k t w p Hi Hrun Hw Hp].
  - unfold get_or_create_player.
    destruct (players s !! str (user_id user)) eqn:E; [done|].
    split; simpl.
    + intros k p [[<- <-]|[_ Hk]]%lookup_insert_Some; [|by auto]. simpl.
      by rewrite seats_absent, victories_absent.
    + intros k pr Hk. rewrite referrals_fresh by done. by auto.
  - rewrite create_table_fresh by done. split; simpl; [|done].
    intros k p Hk. rewrite seats_new_table, victories_new_table. by auto.
  - split; cbn [tables players promoters set_players];
      rewrite ?(on_table_tables s i k t) by done; simpl.
    + intros k' p' [(-> & p1 & Hp1 & ->)|[Hne Hk']]%lookup_alter_Some; simpl.
      * destruct (Hpl _ _ Hp1) as [Hj Hv].
        rewrite (victories_replace_same _ _ _ _ t) by done.
        rewrite (seats_replace_new _ _ _ _ t);
          [|done|done|simpl; apply elem_of_app; right; by apply list_elem_of_singleton].
        split; [lia|done].
      * rewrite (victories_replace_same _ _ _ _ t) by done.
        rewrite (seats_replace_same _ _ _ _ t); [by auto|done|].
        simpl. rewrite elem_of_app, list_elem_of_singleton. split; [intros [?|?]; [done|congruence]|by left].
    + intros k' pr Hk'. rewrite referrals_alter by done. by auto.
  - split; cbn [tables players promoters set_players];
      rewrite ?(on_table_tables s i k t) by done; simpl; [|done].
    intros k' p' Hk'.
    rewrite (seats_replace_same _ _ _ _ t), (victories_replace_same _ _ _ _ t);
      by auto.
  - split; simpl.
    + intros k' p' [(-> & p1 & Hp1 & ->)|[_ Hk']]%lookup_alter_Some; simpl; by auto.
    + intros k' pr Hk'. rewrite (referrals_link _ _ _ p) by done.
      apply lookup_insert_Some in Hk' as [[<- <-]|[Hne Hk']]; simpl.
      * rewrite decide_True by done.
        destruct Hpr0 as [Hpid|(Hnone & n & _ & ->)].
        -- rewrite (Hpr _ _ Hpid). lia.
        -- simpl. rewrite referrals_absent by done. lia.
      * rewrite decide_False by done. rewrite (Hpr _ _ Hk'). lia.
  - split; simpl; [done|].
    intros k pr [[<- <-]|[_ Hk]]%lookup_insert_Some; [|by auto]. simpl.
    destruct (promoters s !! uid_of user) as [pr0|] eqn:E; simpl; [by auto|].
    by rewrite referrals_absent.
  - apply ledger_accrue.
    assert (winner_id t = None) as Hnone.
    { destruct (table_sound_lookup _ _ _ _ Hs Hi) as (_ & _ & [_ Hfin] & _).
      destruct (winner_id t) as [x|] eqn:E; [|done].
      rewrite Hfin in Hrun by (by eexists). done. }
    split; cbn [tables players promoters set_players];
      rewrite ?(on_table_tables s i k t) by done; simpl.
    + intros k' p' Hk'.
      rewrite (seats_replace_same _ _ _ _ t) by done.
      rewrite (victories_replace_new _ _ _ _ t _ w) by done.
      apply lookup_insert_Some in Hk' as [[<- <-]|[Hne Hk']]; simpl.
      * rewrite decide_True by done. destruct (Hpl _ _ Hp) as [Hj Hv].
        split; [done|lia].
      * rewrite decide_False by done. destruct (Hpl _ _ Hk') as [Hj Hv].
        split; [done|lia].
    + intros k' pr Hk'. rewrite (referrals_same _ _ _ p) by done. by auto.
Qed.

Lemma moves_ledger `{U : Unicode} s s' :
  rtc move s s' → tables_ok s → sound s → refs_ok s → ledger s →
  refs_ok s' ∧ ledger s'.
Proof.
  induction 1 as [s|s1 s2 s3 Hmove _ IH]; intros Hok Hs Hrefs Hled; [done|].
  apply IH.
  - by eapply move_tables_ok.
  - by eapply move_sound.
  - by eapply move_refs_ok.
  - by eapply move_ledger.
Qed.

Lemma after_ledger `{U : Unicode} ADMIN_ID r n f :
  tables_ok (loaded f) → sound (loaded f) → refs_ok (loaded f) → ledger (loaded f) →
  ledger (loaded (after ADMIN_ID r n f)).
Proof.
  intros Hok Hs Hrefs Hled. unfold after.
  destruct (commit_take n (handle ADMIN_ID r f).1 f) as [->|(s & Hin & ->)]; [done|].
  rewrite loaded_json.
  eapply moves_ledger; [by eapply handle_moves|done..].
Qed.

Lemma reachable_ledger `{U : Unicode} ADMIN_ID f : reachable ADMIN_ID f → ledger (loaded f).
Proof.
  induction 1 as [f Hf|r n f Hreach IH].
  - rewrite Hf. split; by intros k p ?.
  - destruct (reachable_sound ADMIN_ID f Hreach) as [Hok Hs].
    destruct (reachable_inv ADMIN_ID f Hreach) as [_ Hrefs].
    by apply after_ledger.
Qed.

(** X16: the enrollment counter is a tally.  In every reachable state file
    (runs cut short by a failing reply included) a player's [joined_tables]
    equals the number of tables that list the player. *)
Theorem joined_tables_counts_seats `{U : Unicode}
    (ADMIN_ID : Z) (f : StateFile) (k : string) (p : Player) :
  reachable ADMIN_ID f →
  players (loaded f) !! k = Some p →
  joined_tables p = Z.of_nat (seats k (tables (loaded f))).
Proof.
  intros [Hpl _]%reachable_ledger Hk. by destruct (Hpl k p Hk).
Qed.

Lemma joined_tables_counts_seats_witness :
  ∃ p, players (loaded six_joined) !! "1" = Some p
       ∧ joined_tables p = Z.of_nat (seats "1" (tables (loaded six_joined))).
Proof.
  destruct (players (loaded six_joined) !! "1") as [p|] eqn:E;
    [|by vm_compute in E].
  exists p. split; [reflexivity|].
  exact (joined_tables_counts_seats 99 six_joined "1" p six_joined_reachable E).
Defined.

(** X17: the win counter is a tally.  In every reachable state file a
    player's [wins] equals the number of tables whose [winner_id] is that
    player: a table's winner is declared once and counted once. *)
Theorem wins_counts_tables_won `{U : Unicode}
    (ADMIN_ID : Z) (f : StateFile) (k : string) (p : Player) :
  reachable ADMIN_ID f →
  players (loaded f) !! k = Some p →
  wins p = Z.of_nat (victories k (tables (loaded f))).
Proof.
  intros [Hpl _]%reachable_ledger Hk. by destruct (Hpl k p Hk).
Qed.

Lemma wins_counts_tables_won_witness :
  ∃ p, players (loaded (after 99 (Winner admin ["1"; "@dave"]) 9 table_full)) !! "4"
       = Some p
       ∧ wins p
         = Z.of_nat
             (victories "4"
                (tables (loaded (after 99 (Winner admin ["1"; "@dave"]) 9 table_full)))).
Proof.
  destruct (players (loaded (after 99 (Winner admin ["1"; "@dave"]) 9 table_full))
              !! "4") as [p|] eqn:E; [|by vm_compute in E].
  exists p. split; [reflexivity|].
  apply (wins_counts_tables_won 99
           (after 99 (Winner admin ["1"; "@dave"]) 9 table_full) "4" p); [|exact E].
  apply reach_after. exact table_full_reachable.
Defined.

(** X18: the referral counter is a tally.  In every reachable state file a
    promoter's [referred_players] equals the number of players whose
    [referred_by] is that promoter's key. *)
Theorem referred_players_counts_referrals `{U : Unicode}
    (ADMIN_ID : Z) (f : StateFile) (k : string) (pr : Promoter) :
  reachable ADMIN_ID f →
  promoters (loaded f) !! k = Some pr →
  referred_players pr = Z.of_nat (referrals k (players (loaded f))).
Proof.
  intros [_ Hpr]%reachable_ledger Hk. by apply Hpr.
Qed.

Lemma referred_players_counts_referrals_witness :
  referred_players bob_shell = Z.of_nat (referrals "2" (players (loaded referred_file))).
Proof.
  apply (referred_players_counts_referrals 99 referred_file "2" bob_shell).
  - unfold referred_file. apply reach_after. by apply reach_empty.
  - reflexivity.
Defined.
